(** * Cnchi, [src/pacman/pac.py]: the [Pac] wrapper around pyalpm

    A shallow embedding of the class [Pac]: the event emitter
    ([queue_event]), the download hook ([cb_dl]) and the transaction
    manager ([init_transaction], [finalize_transaction], [do_refresh],
    [do_install]), followed by the properties established about them.

    Conventions of the embedding.
    - Python [int]s are [Z]; Python [float]s are idealised as real
      numbers [R] (true division [/] is real division, [math.log] is [ln]
      with its domain error).
    - A [dict] with string keys whose order is irrelevant is a [gmap];
      the [dict] built in [do_install], whose [values()] are iterated, is
      an insertion-ordered association list.
    - The native engine (pyalpm handle, databases, transactions) is an
      oracle: every engine method has an outcome (it returns or raises)
      that may depend on the history of engine calls made so far; each
      call is recorded in [engine_calls]. The hooks the engine invokes
      while such a call runs are methods of their own ([cb_totaldl],
      [cb_dl]); their effects are not interleaved into the call.
    - [Pac] holds the attributes of the Python object together with the
      part of the world the methods act on (the log, the engine calls). *)

From Stdlib Require Import ZArith Reals Lra Lia Ascii.
From stdpp Require Import base gmap strings list pretty relations.

Local Open Scope Z_scope.

(** ** Python values and exceptions *)

(** Exceptions the module raises or lets through. *)
Inductive exn :=
| PyalpmError (msg : string)      (* pyalpm.error *)
| SystemExit (code : Z)           (* raised by sys.exit *)
| BuiltinExc (name : string).     (* TypeError, ValueError, AttributeError, ... *)

(** The outcome of a call that does not block: it returns or it raises. *)
Inductive outcome (A : Type) :=
| Ok (a : A)
| Err (e : exn).
Arguments Ok {A} a.
Arguments Err {A} e.

(** The result of a method of [Pac]. [Joining e] is the one blocking
    point of the module: the caller is suspended in
    [callback_queue.join()], and [e] is raised when [join] returns. *)
Inductive result (A : Type) :=
| Ret (a : A)
| Raise (e : exn)
| Joining (e : exn).
Arguments Ret {A} a.
Arguments Raise {A} e.
Arguments Joining {A} e.

Definition lift_outcome {A} (o : outcome A) : result A :=
  match o with Ok a => Ret a | Err e => Raise e end.

#[global] Instance outcome_ret : MRet outcome := λ A a, Ok a.
#[global] Instance outcome_bind : MBind outcome := λ A B f o,
  match o with Ok a => f a | Err e => Err e end.

(** The second component of an event: a text, or a number for
    ['percent'] events. Python's [==] on these values is equality here
    (a [str] never equals a number, and [0 == 0.0]). *)
Inductive EvVal :=
| EvStr (s : string)
| EvNum (x : R).

#[global] Instance EvVal_eq_dec : EqDecision EvVal.
Proof.
  intros [s1|x1] [s2|x2].
  - destruct (decide (s1 = s2)) as [->|n]; [left; reflexivity | right; congruence].
  - right; discriminate.
  - right; discriminate.
  - destruct (Req_dec_T x1 x2) as [->|n]; [left; reflexivity | right; congruence].
Defined.

Definition event : Type := string * EvVal.

(** Values found in an [options] dict. *)
Inductive PyVal :=
| PyNone
| PyBool (b : bool)
| PyInt (z : Z)
| PyStr (s : string).

(** [dict.get(key, default)]. *)
Definition dict_get {V} (d : gmap string V) (key : string) (default : V) : V :=
  match d !! key with Some v => v | None => default end.

(** [v > n] for an integer literal [n]; [bool] is a subtype of [int],
    [None] and [str] are not ordered against [int] (TypeError). *)
Definition py_gt (v : PyVal) (n : Z) : outcome bool :=
  match v with
  | PyInt z => Ok (n <? z)
  | PyBool b => Ok (n <? Z.b2z b)
  | PyNone | PyStr _ => Err (BuiltinExc "TypeError")
  end.

(** [v == n] for an integer constant [n]. *)
Definition py_eq_int (v : PyVal) (n : Z) : bool :=
  match v with
  | PyInt z => z =? n
  | PyBool b => Z.b2z b =? n
  | PyNone | PyStr _ => false
  end.

(** [s.endswith(ext)] and [s[:-len(ext)]]. *)
Definition endswith (s ext : string) : bool :=
  let n := String.length s in
  let k := String.length ext in
  (k <=? n)%nat && String.eqb (String.substring (n - k) k s) ext.

Definition strip_suffix (s ext : string) : string :=
  String.substring 0 (String.length s - String.length ext) s.

(** [fmt % args] for the directives [%s] and [%i], the arguments being
    already rendered as text. *)
Fixpoint py_format (fmt : string) (args : list string) : string :=
  match fmt with
  | EmptyString => EmptyString
  | String c fmt' =>
      match c, fmt', args with
      | "%"%char, String d fmt'', arg :: args' =>
          if Ascii.eqb d "s" || Ascii.eqb d "i" then
            arg +:+ py_format fmt'' args'
          else String c (py_format fmt' args)
      | _, _, _ => String c (py_format fmt' args)
      end
  end.

(** [math.log]: a [ValueError] outside the domain. *)
Definition math_log (x : R) : outcome R :=
  if Rlt_dec 0 x then Ok (ln x) else Err (BuiltinExc "ValueError").

(** ** The callback queue (a Python [queue.Queue]) *)

(** [q_pending] counts the items the consumer has taken with [get()]
    and not yet acknowledged with [task_done()]; a [q_maxsize] of zero
    or less means unbounded. *)
Record Queue := mkQueue {
  q_items : list event;
  q_pending : nat;
  q_maxsize : Z;
}.

Definition unfinished_tasks (q : Queue) : nat :=
  (length (q_items q) + q_pending q)%nat.

Definition queue_full (q : Queue) : bool :=
  (0 <? q_maxsize q) && (q_maxsize q <=? Z.of_nat (length (q_items q))).

(** [put_nowait]: [None] stands for the exception [queue.Full]. *)
Definition put_nowait (q : Queue) (e : event) : option Queue :=
  if queue_full q then None
  else Some (mkQueue (q_items q ++ [e]) (q_pending q) (q_maxsize q)).

(** ** The native engine *)

Record Pkg := mkPkg { pkg_name : string }.

(** Options frozen in a transaction at creation: the keyword arguments
    of [handle.init_transaction]. *)
Record TransFlags := mkTransFlags {
  cascade : PyVal;
  nodeps : PyVal;
  force : PyVal;
  dbonly : PyVal;
  downloadonly : PyVal;
  needed : PyVal;
  nosave : PyVal;
  recurse : bool;
  recurseall : bool;
  unneeded : PyVal;
  alldeps : bool;
  allexplicit : bool;
}.

Inductive EngineCall :=
| CInitTransaction (f : TransFlags)
| CAddPkg (name : string)
| CPrepare
| CCommit
| CRelease
| CUpdate (db : string) (force : bool).

(** An engine method: its outcome given the calls made before it. *)
Definition EngineFn (A : Type) : Type := list EngineCall → outcome A.

Record Transaction := mkTransaction {
  t_add_pkg : Pkg → EngineFn unit;
  t_prepare : EngineFn unit;
  t_commit : EngineFn unit;
  t_release : EngineFn unit;
}.

Record DB := mkDB {
  db_name : string;
  get_pkg : string → option Pkg;
  read_grp : string → option (string * list Pkg);
  db_update : bool → EngineFn bool;
}.

Record Handle := mkHandle {
  get_syncdbs : list DB;
  h_init_transaction : TransFlags → EngineFn Transaction;
}.

(** Constants of pyalpm the module reads. *)
Class PyalpmConsts := {
  PKG_REASON_EXPLICIT : Z;
  PKG_REASON_DEPEND : Z;
}.

(** [list(set(l))]: the elements of [l] without duplicates, in an order
    the language leaves unspecified. *)
Class PySet := {
  list_set : list string → list string;
  list_set_NoDup : ∀ l, NoDup (list_set l);
  list_set_elem : ∀ l x, x ∈ list_set l ↔ x ∈ l;
}.

(** ** The [Pac] object *)

Inductive LogLevel := DEBUG | WARNING | ERROR.

Record Pac := mkPac {
  callback_queue : option Queue;
  handle : option Handle;
  last_dl_filename : option string;
  last_dl_progress : R;
  last_dl_total_size : Z;
  total_packages_to_download : Z;
  downloaded_packages : Z;
  total_download_size : Z;
  last_event : gmap string EvVal;
  logged : list (LogLevel * string);
  engine_calls : list EngineCall;
}.

Definition set_callback_queue (q : option Queue) (p : Pac) : Pac :=
  mkPac q (handle p) (last_dl_filename p) (last_dl_progress p)
    (last_dl_total_size p) (total_packages_to_download p)
    (downloaded_packages p) (total_download_size p) (last_event p)
    (logged p) (engine_calls p).

Definition set_last_dl_filename (f : option string) (p : Pac) : Pac :=
  mkPac (callback_queue p) (handle p) f (last_dl_progress p)
    (last_dl_total_size p) (total_packages_to_download p)
    (downloaded_packages p) (total_download_size p) (last_event p)
    (logged p) (engine_calls p).

Definition set_last_dl_progress (x : R) (p : Pac) : Pac :=
  mkPac (callback_queue p) (handle p) (last_dl_filename p) x
    (last_dl_total_size p) (total_packages_to_download p)
    (downloaded_packages p) (total_download_size p) (last_event p)
    (logged p) (engine_calls p).

Definition set_last_dl_total_size (n : Z) (p : Pac) : Pac :=
  mkPac (callback_queue p) (handle p) (last_dl_filename p)
    (last_dl_progress p) n (total_packages_to_download p)
    (downloaded_packages p) (total_download_size p) (last_event p)
    (logged p) (engine_calls p).

Definition set_total_packages_to_download (n : Z) (p : Pac) : Pac :=
  mkPac (callback_queue p) (handle p) (last_dl_filename p)
    (last_dl_progress p) (last_dl_total_size p) n
    (downloaded_packages p) (total_download_size p) (last_event p)
    (logged p) (engine_calls p).

Definition set_downloaded_packages (n : Z) (p : Pac) : Pac :=
  mkPac (callback_queue p) (handle p) (last_dl_filename p)
    (last_dl_progress p) (last_dl_total_size p)
    (total_packages_to_download p) n (total_download_size p)
    (last_event p) (logged p) (engine_calls p).

Definition set_total_download_size (n : Z) (p : Pac) : Pac :=
  mkPac (callback_queue p) (handle p) (last_dl_filename p)
    (last_dl_progress p) (last_dl_total_size p)
    (total_packages_to_download p) (downloaded_packages p) n
    (last_event p) (logged p) (engine_calls p).

Definition set_last_event (m : gmap string EvVal) (p : Pac) : Pac :=
  mkPac (callback_queue p) (handle p) (last_dl_filename p)
    (last_dl_progress p) (last_dl_total_size p)
    (total_packages_to_download p) (downloaded_packages p)
    (total_download_size p) m (logged p) (engine_calls p).

Definition set_logged (l : list (LogLevel * string)) (p : Pac) : Pac :=
  mkPac (callback_queue p) (handle p) (last_dl_filename p)
    (last_dl_progress p) (last_dl_total_size p)
    (total_packages_to_download p) (downloaded_packages p)
    (total_download_size p) (last_event p) l (engine_calls p).

Definition set_engine_calls (c : list EngineCall) (p : Pac) : Pac :=
  mkPac (callback_queue p) (handle p) (last_dl_filename p)
    (last_dl_progress p) (last_dl_total_size p)
    (total_packages_to_download p) (downloaded_packages p)
    (total_download_size p) (last_event p) (logged p) c.

(** [Pac.__init__] once the configuration is loaded and
    [initialize_alpm] has bound the handle [h]. *)
Definition new_Pac (callback_queue : option Queue) (h : Handle) : Pac :=
  mkPac callback_queue (Some h) None 0%R 0 0 0 0 ∅ [] [].

(** ** Methods as state transformers *)

Definition M (A : Type) : Type := Pac → result A * Pac.

#[global] Instance M_ret : MRet M := λ A a p, (Ret a, p).
#[global] Instance M_bind : MBind M := λ A B f m p,
  match m p with
  | (Ret a, p') => f a p'
  | (Raise e, p') => (Raise e, p')
  | (Joining e, p') => (Joining e, p')
  end.

Definition raise {A} (e : exn) : M A := λ p, (Raise e, p).

(** [logging.debug], [logging.warning], [logging.error]. *)
Definition logging (lvl : LogLevel) (msg : string) (p : Pac) : Pac :=
  set_logged (logged p ++ [(lvl, msg)]) p.

Definition log (lvl : LogLevel) (msg : string) : M unit :=
  λ p, (Ret tt, logging lvl msg p).

(** A call into the engine: recorded, then answered by the oracle. *)
Definition engine_call {A} (c : EngineCall) (f : EngineFn A) (p : Pac)
  : outcome A * Pac :=
  (f (engine_calls p), set_engine_calls (engine_calls p ++ [c]) p).

Definition engine {A} (c : EngineCall) (f : EngineFn A) : M A :=
  λ p, let '(o, p') := engine_call c f p in (lift_outcome o, p').

(** [_]: gettext with no catalogue installed returns its argument. *)
Definition gettext (s : string) : string := s.

(** ** Event emitter *)

(** The code object of the frame that called [queue_event]
    ([inspect.currentframe().f_back.f_code]). *)
Record CodeInfo := mkCodeInfo {
  co_name : string;
  co_filename : string;
  co_firstlineno : Z;
}.

(** ["%s: %s in %s:%i" % (event_text, co_name, co_filename, co_firstlineno)].
    ['error'] events carry a text; the rendering of a number by [%s] is
    not modelled (the number is kept). *)
Definition format_error (event_text : EvVal) (func : CodeInfo) : EvVal :=
  match event_text with
  | EvStr s =>
      EvStr (py_format "%s: %s in %s:%i"
               [s; co_name func; co_filename func;
                pretty (co_firstlineno func)])
  | EvNum x => EvNum x
  end.

Definition queue_event (func : CodeInfo) (event_type : string)
    (event_text : EvVal) : M unit := λ p,
  let same_event :=
    match last_event p !! event_type with   (* event_type in self.last_event *)
    | Some last => bool_decide (last = event_text)
    | None => false
    end in
  if same_event then
    (* Do not enqueue the same event twice *)
    (Ret tt, p)
  else
    let p := set_last_event (<[event_type := event_text]> (last_event p)) p in
    let event_text :=
      if bool_decide (event_type = "error") then format_error event_text func
      else event_text in
    match callback_queue p with
    | None =>
        if bool_decide (event_type = "error") then (Raise (SystemExit 1), p)
        else (Ret tt, p)
    | Some q =>
        let p :=
          match put_nowait q (event_type, event_text) with
          | Some q' => set_callback_queue (Some q') p
          | None => p                       (* except queue.Full: pass *)
          end in
        if bool_decide (event_type = "error") then
          (* callback_queue.join(), then sys.exit(1) *)
          (Joining (SystemExit 1), p)
        else (Ret tt, p)
    end.

(** ** Callback functions *)

Definition cb_totaldl (total_size : Z) : M unit :=
  λ p, (Ret tt, set_total_download_size total_size p).

(** The frame of [cb_dl], as seen by the [queue_event] it calls (used
    for ['error'] events only, which [cb_dl] never sends). *)
Definition cb_dl_code : CodeInfo := mkCodeInfo "cb_dl" "pac.py" 344.

(** The progress indicator of a file already being downloaded. *)
Definition dl_progress (last_dl_total_size tx : Z) : outcome R :=
  if 0 <? last_dl_total_size then
    Ok (IZR tx / IZR last_dl_total_size)%R
  else
    (* If total is unknown, use log(kBytes)²/2 *)
    l ← math_log (1 + IZR tx / 1024)%R;
    Ok ((l ^ 2 / 2) / 100)%R.

Definition cb_dl (filename : string) (tx total : Z) : M unit := λ p,
  if bool_decide (Some filename ≠ last_dl_filename p)
     || bool_decide (last_dl_total_size p ≠ total)
  then
    (* a new file is coming *)
    let p := set_last_dl_filename (Some filename) p in
    let p := set_last_dl_total_size total p in
    let p := set_last_dl_progress 0%R p in
    let '(text, p) :=
      if total_download_size p =? 0 then
        let ext := ".db" in
        let filename :=
          if endswith filename ext then strip_suffix filename ext
          else filename in
        (py_format (gettext "Updating %s database") [filename], p)
      else
        let ext := ".pkg.tar.xz" in
        let filename :=
          if endswith filename ext then strip_suffix filename ext
          else filename in
        let p := set_downloaded_packages (downloaded_packages p + 1) p in
        (py_format (gettext "Downloading %s...") [filename], p) in
    (queue_event cb_dl_code "info" (EvStr text) ;;
     queue_event cb_dl_code "percent" (EvNum 0%R)) p
  else
    match dl_progress (last_dl_total_size p) tx with
    | Err e => (Raise e, p)
    | Ok progress =>
        (* Update progress only if it has grown *)
        if Rgt_dec progress (last_dl_progress p) then
          queue_event cb_dl_code "percent" (EvNum progress)
            (set_last_dl_progress progress p)
        else (Ret tt, p)
    end.

(** ** Transaction manager *)

(** Queries of the engine ([get_syncdbs], [get_pkg], [read_grp]) have no
    effect and are not recorded; [init_transaction], [add_pkg],
    [prepare], [commit], [release] and [update] are. *)

Definition finalize_transaction (transaction : Transaction) : M bool := λ p,
  let all_ok := true in
  (* try: transaction.prepare(); transaction.commit() *)
  let '(body, p) :=
    match engine_call CPrepare (t_prepare transaction) p with
    | (Ok _, p) => engine_call CCommit (t_commit transaction) p
    | (Err e, p) => (Err e, p)
    end in
  let '(all_ok, p) :=
    match body with
    | Err (PyalpmError err) =>
        (* except pyalpm.error as err: *)
        let msg :=
          py_format (gettext "Can't finalize alpm transaction: %s") [err] in
        (false, logging ERROR msg p)
    | Err _ | Ok _ => (all_ok, p)
    end in
  (* finally: transaction.release(); return all_ok
     (the return discards an exception still in flight) *)
  match engine_call CRelease (t_release transaction) p with
  | (Ok _, p) => (Ret all_ok, p)
  | (Err e, p) => (Raise e, p)
  end.

(** The keyword arguments [init_transaction] computes from [options]. *)
Definition transaction_options `{PyalpmConsts} (options : gmap string PyVal)
  : outcome TransFlags :=
  let cascade := dict_get options "cascade" (PyBool false) in
  let nodeps := dict_get options "nodeps" (PyBool false) in
  let force := dict_get options "force" (PyBool false) in
  let dbonly := dict_get options "dbonly" (PyBool false) in
  let downloadonly := dict_get options "downloadonly" (PyBool false) in
  let needed := dict_get options "needed" (PyBool false) in
  let nosave := dict_get options "nosave" (PyBool false) in
  recurse ← py_gt (dict_get options "recursive" (PyInt 0)) 0;
  recurseall ← py_gt (dict_get options "recursive" (PyInt 0)) 1;
  let unneeded := dict_get options "unneeded" (PyBool false) in
  let alldeps := py_eq_int (dict_get options "mode" PyNone) PKG_REASON_DEPEND in
  let allexplicit :=
    py_eq_int (dict_get options "mode" PyNone) PKG_REASON_EXPLICIT in
  mret (mkTransFlags cascade nodeps force dbonly downloadonly needed nosave
          recurse recurseall unneeded alldeps allexplicit).

Definition init_transaction `{PyalpmConsts} (options : gmap string PyVal)
  : M (option Transaction) := λ p,
  (* try: transaction = self.handle.init_transaction(...) *)
  let '(body, p) :=
    match handle p with
    | None => (Err (BuiltinExc "AttributeError"), p)
    | Some h =>
        match transaction_options options with
        | Err e => (Err e, p)
        | Ok flags =>
            engine_call (CInitTransaction flags) (h_init_transaction h flags) p
        end
    end in
  match body with
  | Ok transaction => (Ret (Some transaction), p)
  | Err (PyalpmError err) =>
      (* except pyalpm.error as err: ... transaction = None *)
      let msg :=
        py_format (gettext "Can't init alpm transaction: %s") [err] in
      (Ret None, logging ERROR msg p)
  | Err _ =>
      (* finally: return transaction, with the local still unbound *)
      (Raise (BuiltinExc "UnboundLocalError"), p)
  end.

(** [transaction.release()] on what [init_transaction] returned. *)
Definition release_transaction (transaction : option Transaction) : M unit :=
  match transaction with
  | Some t => engine CRelease (t_release t)
  | None => raise (BuiltinExc "AttributeError")
  end.

Fixpoint do_refresh_loop `{PyalpmConsts} (dbs : list DB) : M unit :=
  match dbs with
  | [] => mret tt
  | db :: dbs =>
      transaction ← init_transaction ∅;
      engine (CUpdate (db_name db) true) (db_update db true) ;;
      release_transaction transaction ;;
      do_refresh_loop dbs
  end.

Definition do_refresh `{PyalpmConsts} : M bool := λ p,
  match handle p with
  | None =>
      (Raise (PyalpmError EmptyString), logging ERROR "alpm is not initialised" p)
  | Some h => (do_refresh_loop (get_syncdbs h) ;; mret true) p
  end.

(** A [dict] in insertion order: a key set again keeps its place. *)
Fixpoint dict_set {V} (k : string) (v : V) (d : list (string * V))
  : list (string * V) :=
  match d with
  | [] => [(k, v)]
  | (k', v') :: d =>
      if bool_decide (k = k') then (k, v) :: d else (k', v') :: dict_set k v d
  end.

Definition dict_of_pairs {V} (kvs : list (string * V)) : list (string * V) :=
  foldl (λ d kv, dict_set kv.1 kv.2 d) [] kvs.

Definition dict_values {V} (d : list (string * V)) : list V := d.*2.

(** [dict((db.name, db) for db in self.handle.get_syncdbs())]. *)
Definition repos_of (h : Handle) : list (string * DB) :=
  dict_of_pairs ((λ db, (db_name db, db)) <$> get_syncdbs h).

Fixpoint first_pkg (pkgname : string) (dbs : list DB) : option Pkg :=
  match dbs with
  | [] => None
  | db :: dbs =>
      match get_pkg db pkgname with
      | Some pkg => Some pkg
      | None => first_pkg pkgname dbs
      end
  end.

(** [inl pkg] is the pair [(True, pkg)], [inr msg] the pair [(False, msg)]. *)
Definition find_sync_package (pkgname : string) (syncdbs : list (string * DB))
  : Pkg + string :=
  match first_pkg pkgname (dict_values syncdbs) with
  | Some pkg => inl pkg
  | None => inr (py_format "Package '%s' was not found." [pkgname])
  end.

Fixpoint first_group (group : string) (repos : list DB) : option (list Pkg) :=
  match repos with
  | [] => None
  | repo :: repos =>
      match read_grp repo group with
      | None => first_group group repos            (* continue *)
      | Some (name, pkgs) => Some pkgs
      end
  end.

Definition get_group_pkgs (h : Handle) (group : string) : option (list Pkg) :=
  first_group group (get_syncdbs h).

(** What [do_install] returns: the empty list, or a boolean. *)
Inductive InstallResult :=
| EmptyList
| Bool (b : bool).

(** One turn of the first loop of [do_install]. *)
Definition resolve_name (h : Handle) (repos : list (string * DB))
    (conflicts : list string) (targets : list string) (name : string)
  : M (list string) :=
  match find_sync_package name repos with
  | inl pkg =>
      (* Check that added package is not in our conflicts list *)
      if bool_decide (pkg_name pkg ∈ conflicts) then mret targets
      else mret (targets ++ [pkg_name pkg])
  | inr _ =>
      (* Couldn't find the package, check if it's a group *)
      match get_group_pkgs h name with
      | Some group_pkgs =>
          mret (foldl (λ targets group_pkg,
                         if bool_decide (pkg_name group_pkg ∈ conflicts)
                         then targets
                         else targets ++ [pkg_name group_pkg])
                  targets group_pkgs)
      | None =>
          log ERROR
            (py_format (gettext "Can't find a package or group called '%s'")
               [name]) ;;
          mret targets
      end
  end.

Fixpoint resolve_targets (h : Handle) (repos : list (string * DB))
    (conflicts : list string) (targets : list string) (pkgs : list string)
  : M (list string) :=
  match pkgs with
  | [] => mret targets
  | name :: pkgs =>
      targets ← resolve_name h repos conflicts targets name;
      resolve_targets h repos conflicts targets pkgs
  end.

(** The second loop of [do_install]: every target is looked up again
    and added to the transaction. *)
Fixpoint add_targets (trans : Transaction) (repos : list (string * DB))
    (targets : list string) : M unit :=
  match targets with
  | [] => mret tt
  | name :: targets =>
      match find_sync_package name repos with
      | inl pkg =>
          log DEBUG
            (py_format (gettext "Adding package '%s' to transaction")
               [pkg_name pkg]) ;;
          engine (CAddPkg (pkg_name pkg)) (t_add_pkg trans pkg) ;;
          add_targets trans repos targets
      | inr _ => raise (BuiltinExc "AttributeError")   (* str has no .name *)
      end
  end.

(** [do_install] from the point where the targets are known. *)
Definition install_targets `{PyalpmConsts} (repos : list (string * DB))
    (targets : list string) (options : gmap string PyVal) : M InstallResult :=
  if bool_decide (length targets = 0%nat) then
    log ERROR (gettext "No targets found") ;;
    mret (Bool false)
  else
    trans ← init_transaction options;
    match trans with
    | None => mret (Bool false)
    | Some trans =>
        add_targets trans repos targets ;;
        (λ p, (Ret tt,
               set_total_packages_to_download (Z.of_nat (length targets)) p)) ;;
        log DEBUG (gettext "Run and finalize transaction...") ;;
        all_ok ← finalize_transaction trans;
        mret (Bool all_ok)
    end.

Definition do_install `{PySet} `{PyalpmConsts} (pkgs conflicts : list string)
    (options : gmap string PyVal) : M InstallResult := λ p,
  match handle p with
  | None =>
      (Raise (PyalpmError EmptyString), logging ERROR "alpm is not initialised" p)
  | Some h =>
      (log DEBUG
         (gettext "Cnchi will install a list of packages like pacman -S") ;;
       if bool_decide (length pkgs = 0%nat) then mret EmptyList
       else
         (* Discard duplicates *)
         let pkgs := list_set pkgs in
         let repos := repos_of h in
         targets ← resolve_targets h repos conflicts [] pkgs;
         (* Discard duplicates *)
         let targets := list_set targets in
         install_targets repos targets options) p
  end.

(** ** The producer and the consumer of the callback queue *)

(** The installer process that owns the [Pac] object: running, blocked
    in [join()] with the exception that follows it, or terminated by an
    exception nothing caught. *)
Inductive Producer :=
| Running
| Blocked (e : exn)
| Terminated (e : exn).

Definition producer_after {A} (r : result A) : Producer :=
  match r with
  | Ret _ => Running
  | Raise e => Terminated e
  | Joining e => Blocked e
  end.

Record System := mkSystem {
  sys_queue : Queue;
  sys_delivered : list event;     (* what the consumer has received *)
  sys_producer : Producer;
}.

(** The producer and its queue once a method of [Pac] has answered,
    beside a consumer that has received [delivered] so far; there is no
    such system when no queue is attached. *)
Definition system_after {A} (delivered : list event) (r : result A * Pac)
  : option System :=
  q ← callback_queue r.2; Some (mkSystem q delivered (producer_after r.1)).

(** The consumer takes the oldest item ([get]) or acknowledges one it
    has taken ([task_done]); [join] returns once no task is unfinished,
    and the [sys.exit] after it ends the process. *)
Inductive step : System → System → Prop :=
| step_get e items pending maxsize delivered prod :
    step (mkSystem (mkQueue (e :: items) pending maxsize) delivered prod)
         (mkSystem (mkQueue items (S pending) maxsize) (delivered ++ [e]) prod)
| step_task_done items pending maxsize delivered prod :
    step (mkSystem (mkQueue items (S pending) maxsize) delivered prod)
         (mkSystem (mkQueue items pending maxsize) delivered prod)
| step_join q delivered e :
    unfinished_tasks q = 0%nat →
    step (mkSystem q delivered (Blocked e))
         (mkSystem q delivered (Terminated e)).

(** The number of [release] calls among engine calls. *)
Definition is_release (c : EngineCall) : bool :=
  match c with CRelease => true | _ => false end.

Definition releases (calls : list EngineCall) : nat :=
  length (List.filter is_release calls).

(** ** Vocabulary of the statements *)

(** The state [queue_event] goes on with once the event passed the
    cache. *)
Definition remember (event_type : string) (event_text : EvVal) (p : Pac)
  : Pac :=
  set_last_event (<[event_type := event_text]> (last_event p)) p.

(** A call continues the file being downloaded when neither the name
    nor the total differs from the recorded ones. *)
Definition same_file (filename : string) (total : Z) (p : Pac) : Prop :=
  last_dl_filename p = Some filename ∧ last_dl_total_size p = total.

(** The fallback curve of the source, as the specification writes it. *)
Definition log_curve (tx : Z) : R :=
  (ln (1 + IZR tx / 1024) ^ 2 / 200)%R.

(** The engine's error taxonomy has errors arise in [prepare], [commit]
    and database updates; the properties below are stated for a
    transaction whose [release] returns normally. *)
Definition release_returns (transaction : Transaction) : Prop :=
  ∀ calls, t_release transaction calls = Ok tt.

(** What the two phases answer when [finalize_transaction] is entered
    in state [p]: [prepare] first, then [commit] if [prepare] returned. *)
Definition phases (transaction : Transaction) (p : Pac) : outcome unit :=
  match t_prepare transaction (engine_calls p) with
  | Ok _ => t_commit transaction (engine_calls p ++ [CPrepare])
  | Err e => Err e
  end.

Definition phase_calls (transaction : Transaction) (p : Pac)
  : list EngineCall :=
  match t_prepare transaction (engine_calls p) with
  | Ok _ => [CPrepare; CCommit]
  | Err _ => [CPrepare]
  end.

(** The flags of a transaction created with no option. *)
Definition default_flags : TransFlags :=
  mkTransFlags (PyBool false) (PyBool false) (PyBool false) (PyBool false)
    (PyBool false) (PyBool false) (PyBool false) false false (PyBool false)
    false false.

(** The engine calls of one turn of the loop that completes. *)
Definition refresh_calls (dbs : list DB) : list EngineCall :=
  db ← dbs; [CInitTransaction default_flags; CUpdate (db_name db) true; CRelease].

(** Every transaction the handle creates can be released. *)
Definition transactions_available (h : Handle) : Prop :=
  ∀ calls, ∃ t,
    h_init_transaction h default_flags calls = Ok t
    ∧ ∀ calls', t_release t calls' = Ok tt.

(** The update returns, with either answer (refreshed, or up to date). *)
Definition update_returns (db : DB) : Prop :=
  ∀ calls, ∃ updated, db_update db true calls = Ok updated.

Definition is_update (c : EngineCall) : bool :=
  match c with CUpdate _ _ => true | _ => false end.

(** The targets one requested name contributes. *)
Definition contributed (h : Handle) (repos : list (string * DB))
    (conflicts : list string) (name : string) : list string :=
  match find_sync_package name repos with
  | inl pkg =>
      if bool_decide (pkg_name pkg ∈ conflicts) then [] else [pkg_name pkg]
  | inr _ =>
      match get_group_pkgs h name with
      | Some group_pkgs =>
          List.filter (λ n, negb (bool_decide (n ∈ conflicts)))
            (pkg_name <$> group_pkgs)
      | None => []
      end
  end.

(** The diagnostic a name that is neither a package nor a group leaves. *)
Definition diagnosed (h : Handle) (repos : list (string * DB))
    (name : string) (p : Pac) : Pac :=
  match find_sync_package name repos, get_group_pkgs h name with
  | inr _, None =>
      logging ERROR
        (py_format "Can't find a package or group called '%s'" [name]) p
  | _, _ => p
  end.

(** While the producer is blocked in [join], the consumer only moves
    items from the queue to what it has received; the producer is
    released only when nothing is left. *)
Definition drained_into (s0 s : System) (e : exn) : Prop :=
  (sys_producer s = Blocked e
   ∧ sys_delivered s ++ q_items (sys_queue s)
     = sys_delivered s0 ++ q_items (sys_queue s0))
  ∨ (sys_producer s = Terminated e
     ∧ unfinished_tasks (sys_queue s) = 0%nat
     ∧ sys_delivered s = sys_delivered s0 ++ q_items (sys_queue s0)).

(** ** Concrete engines and objects used in the examples *)

(** The values libalpm gives the two install reasons. *)
Definition libalpm_consts : PyalpmConsts :=
  {| PKG_REASON_EXPLICIT := 0; PKG_REASON_DEPEND := 1 |}.

(** One admissible order for [list(set(l))]: that of a [gset]. *)
Definition gset_list (l : list string) : list string :=
  elements (list_to_set l : gset string).

Definition gset_order : PySet :=
  {| list_set := gset_list;
     list_set_NoDup := λ l, NoDup_elements (list_to_set l : gset string);
     list_set_elem := λ l x,
       transitivity (elem_of_elements (list_to_set l : gset string) x)
                    (elem_of_list_to_set x l) |}.

Definition empty_queue (maxsize : Z) : Queue := mkQueue [] 0 maxsize.

(** An engine that answers every call normally. *)
Definition quiet_transaction : Transaction :=
  mkTransaction (λ _ _, Ok tt) (λ _, Ok tt) (λ _, Ok tt) (λ _, Ok tt).

Definition quiet_db (name : string) (pkgs : list string) : DB :=
  mkDB name
    (λ n, if bool_decide (n ∈ pkgs) then Some (mkPkg n) else None)
    (λ _, None)
    (λ _ _, Ok true).

Definition quiet_handle (dbs : list DB) : Handle :=
  mkHandle dbs (λ _ _, Ok quiet_transaction).

(** A database whose update fails. *)
Definition broken_db (name : string) : DB :=
  mkDB name (λ _, None) (λ _, None)
    (λ _ _, Err (PyalpmError "unable to update database")).

(** A transaction whose [commit] fails with an engine error. *)
Definition failing_commit : Transaction :=
  mkTransaction (λ _ _, Ok tt) (λ _, Ok tt)
    (λ _, Err (PyalpmError "transaction failed")) (λ _, Ok tt).

(** A transaction whose [prepare] fails with an exception that is not
    an engine error. *)
Definition crashing_prepare : Transaction :=
  mkTransaction (λ _ _, Ok tt) (λ _, Err (BuiltinExc "MemoryError"))
    (λ _, Ok tt) (λ _, Ok tt).

(** A transaction whose [prepare] fails with an engine error and whose
    [release] fails as well. *)
Definition failing_prepare_and_release : Transaction :=
  mkTransaction (λ _ _, Ok tt)
    (λ _, Err (PyalpmError "could not prepare transaction"))
    (λ _, Ok tt)
    (λ _, Err (PyalpmError "unable to release transaction")).

(** A transaction whose [prepare] fails with an exception that is not
    an engine error and whose [release] fails with an engine error. *)
Definition crashing_prepare_failing_release : Transaction :=
  mkTransaction (λ _ _, Ok tt) (λ _, Err (BuiltinExc "MemoryError"))
    (λ _, Ok tt)
    (λ _, Err (PyalpmError "unable to release transaction")).

(** A repository holding the packages [A] and [B]. *)
Definition core_AB : Handle := quiet_handle [quiet_db "core" ["A"; "B"]].

(** The state of a file that was just announced, as the first call of
    [cb_dl] for it leaves the object when the queue is unbounded. *)
Definition announced : Pac :=
  (cb_dl "core.db" 0 100 (new_Pac (Some (empty_queue 0)) (quiet_handle []))).2.

(** ** The remaining hooks and methods *)

(** [fmt % args] where the directive [%d] occurs as well. *)
Fixpoint py_format_d (fmt : string) (args : list string) : string :=
  match fmt with
  | EmptyString => EmptyString
  | String c fmt' =>
      match c, fmt', args with
      | "%"%char, String d fmt'', arg :: args' =>
          if Ascii.eqb d "s" || Ascii.eqb d "i" || Ascii.eqb d "d" then
            arg +:+ py_format_d fmt'' args'
          else String c (py_format_d fmt' args)
      | _, _, _ => String c (py_format_d fmt' args)
      end
  end.

Definition set_handle (h : option Handle) (p : Pac) : Pac :=
  mkPac (callback_queue p) h (last_dl_filename p) (last_dl_progress p)
    (last_dl_total_size p) (total_packages_to_download p)
    (downloaded_packages p) (total_download_size p) (last_event p)
    (logged p) (engine_calls p).

Definition get_handle (p : Pac) : option Handle := handle p.

(** [Pac.release]: the handle is dropped. *)
Definition release : M unit := λ p,
  match handle p with
  | Some _ => (Ret tt, set_handle None p)
  | None => (Ret tt, p)
  end.

(** [cb_question]: the body is [pass]. *)
Definition cb_question : M unit := mret tt.

(** The text [cb_event] gives an action ID; the tests [ID is 1], ...
    compare small integers, on which identity is equality. The other
    two arguments of the hook are not used. *)
Definition cb_event_action (ID : Z) : string :=
  if ID =? 1 then gettext "Checking dependencies..."
  else if ID =? 3 then gettext "Checking file conflicts..."
  else if ID =? 5 then gettext "Resolving dependencies..."
  else if ID =? 7 then gettext "Checking inter conflicts..."
  else if ID =? 9 then
    (* action = _('Installing...') *)
    EmptyString
  else if ID =? 11 then gettext "Removing..."
  else if ID =? 13 then gettext "Upgrading..."
  else if ID =? 15 then gettext "Checking integrity..."
  else if ID =? 17 then gettext "Loading packages files..."
  else if ID =? 26 then gettext "Configuring..."
  else if ID =? 27 then gettext "Downloading a file"
  else EmptyString.

Definition cb_event_code : CodeInfo := mkCodeInfo "cb_event" "pac.py" 287.

Definition cb_event (ID : Z) : M unit :=
  let action := cb_event_action ID in
  if (0 <? String.length action)%nat then
    queue_event cb_event_code "info" (EvStr action)
  else mret tt.

(** The two log levels of pyalpm the module tests, as bit masks. *)
Class PyalpmLog := {
  LOG_ERROR : Z;
  LOG_WARNING : Z;
}.

Definition cb_log `{PyalpmLog} (level : Z) (line : string) : M unit :=
  (* Only manage error and warning messages *)
  if negb (Z.land level LOG_ERROR =? 0) then log ERROR line
  else if negb (Z.land level LOG_WARNING =? 0) then log WARNING line
  else mret tt.

Definition cb_progress_code : CodeInfo :=
  mkCodeInfo "cb_progress" "pac.py" 331.

(** [target] is the name of what is being installed, or nothing; an
    empty name is false as well. *)
Definition truthy (target : option string) : option string :=
  match target with
  | Some EmptyString | None => None
  | Some name => Some name
  end.

(** The message and the fraction [cb_progress] computes; [i / n] is a
    true division. *)
Definition progress_report (target : option string) (percent n i : Z)
  : outcome (string * R) :=
  match truthy target with
  | Some target =>
      let msg := py_format_d (gettext "Installing %s (%d/%d)")
                   [target; pretty i; pretty n] in
      if n =? 0 then Err (BuiltinExc "ZeroDivisionError")
      else Ok (msg, (IZR i / IZR n)%R)
  | None =>
      let msg :=
        py_format_d (gettext "Checking and loading packages... (%d targets)")
          [pretty n] in
      Ok (msg, (IZR percent / 100)%R)
  end.

Definition cb_progress (target : option string) (percent n i : Z) : M unit :=
  λ p,
  match progress_report target percent n i with
  | Err e => (Raise e, p)
  | Ok (msg, percent) =>
      (queue_event cb_progress_code "info" (EvStr msg) ;;
       queue_event cb_progress_code "percent" (EvNum percent)) p
  end.

(** Same-file calls of [cb_dl], one after the other; the run stops at
    the first call that raises. *)
Fixpoint cb_dl_calls (filename : string) (total : Z) (txs : list Z) : M unit :=
  match txs with
  | [] => mret tt
  | tx :: txs => cb_dl filename tx total ;; cb_dl_calls filename total txs
  end.

(** The consumer empties the queue and acknowledges every item. *)
Definition drained (q : Queue) : Queue := mkQueue [] 0 (q_maxsize q).

(** The values libalpm gives the log levels. *)
Definition libalpm_log : PyalpmLog := {| LOG_ERROR := 1; LOG_WARNING := 2 |}.

(** A handle whose engine refuses to create transactions. *)
Definition locked_handle (dbs : list DB) : Handle :=
  mkHandle dbs (λ _ _, Err (PyalpmError "unable to lock database")).

(** A transaction that refuses every package. *)
Definition refusing_transaction : Transaction :=
  mkTransaction (λ _ _, Err (PyalpmError "could not add package"))
    (λ _, Ok tt) (λ _, Ok tt) (λ _, Ok tt).

(** [queue_event] touches the cache and the queue, nothing else. *)
Definition same_but_events (p p' : Pac) : Prop :=
  handle p' = handle p
  ∧ last_dl_filename p' = last_dl_filename p
  ∧ last_dl_progress p' = last_dl_progress p
  ∧ last_dl_total_size p' = last_dl_total_size p
  ∧ total_packages_to_download p' = total_packages_to_download p
  ∧ downloaded_packages p' = downloaded_packages p
  ∧ total_download_size p' = total_download_size p
  ∧ logged p' = logged p
  ∧ engine_calls p' = engine_calls p.

(** The action IDs [cb_event] has a text for. *)
Definition announced_actions : list Z := [1; 3; 5; 7; 11; 13; 15; 17; 26; 27].

(** The hooks [initialize_alpm] registers on the handle ([logcb],
    [dlcb], [totaldlcb], [eventcb], [questioncb], [progresscb]), as the
    engine invokes them. *)
Inductive Hook :=
| HookLog (level : Z) (line : string)
| HookDl (filename : string) (tx total : Z)
| HookTotaldl (total_size : Z)
| HookEvent (ID : Z)
| HookQuestion
| HookProgress (target : option string) (percent n i : Z).

Definition run_hook `{PyalpmLog} (hook : Hook) : M unit :=
  match hook with
  | HookLog level line => cb_log level line
  | HookDl filename tx total => cb_dl filename tx total
  | HookTotaldl total_size => cb_totaldl total_size
  | HookEvent ID => cb_event ID
  | HookQuestion => cb_question
  | HookProgress target percent n i => cb_progress target percent n i
  end.

(** A target that [find_sync_package] finds again, under its own name. *)
Definition found_again (repos : list (string * DB)) (name : string) : Prop :=
  ∃ pkg, find_sync_package name repos = inl pkg ∧ pkg_name pkg = name.

(** The debug lines the second loop of [do_install] writes. *)
Definition adding_lines (targets : list string) : list (LogLevel * string) :=
  (λ name, (DEBUG, py_format "Adding package '%s' to transaction" [name]))
    <$> targets.

(** The state after the packages named [targets] were added. *)
Definition added (targets : list string) (p : Pac) : Pac :=
  set_engine_calls (engine_calls p ++ (CAddPkg <$> targets))
    (set_logged (logged p ++ adding_lines targets) p).

(** A handle whose transactions refuse every package. *)
Definition refusing_handle (dbs : list DB) : Handle :=
  mkHandle dbs (λ _ _, Ok refusing_transaction).

(** A requested name that is neither a package of the repositories nor
    a group of the handle. *)
Definition is_unknown (h : Handle) (repos : list (string * DB))
    (name : string) : bool :=
  match find_sync_package name repos, get_group_pkgs h name with
  | inr _, None => true
  | _, _ => false
  end.

(** The error lines the first loop of [do_install] writes for them. *)
Definition unknown_lines (h : Handle) (repos : list (string * DB))
    (pkgs : list string) : list (LogLevel * string) :=
  (λ name, (ERROR, py_format "Can't find a package or group called '%s'" [name]))
    <$> List.filter (is_unknown h repos) pkgs.

(** * Properties *)

(** Runs the first bind of a computation in [M]. *)
Ltac run_bind := unfold mbind at 1, M_bind at 1.

(** ** The event emitter *)

Section Emitter.

Implicit Types (p : Pac) (func : CodeInfo) (event_type : string)
  (event_text : EvVal) (q : Queue).

Lemma queue_event_same func event_type event_text p :
  last_event p !! event_type = Some event_text →
  queue_event func event_type event_text p = (Ret tt, p).
Proof.
  intros Hsame. unfold queue_event. rewrite Hsame.
  by rewrite bool_decide_eq_true_2.
Qed.

Lemma queue_event_fresh func event_type event_text p :
  last_event p !! event_type ≠ Some event_text →
  queue_event func event_type event_text p =
    let p' := remember event_type event_text p in
    let text :=
      if bool_decide (event_type = "error") then format_error event_text func
      else event_text in
    match callback_queue p with
    | None =>
        (if bool_decide (event_type = "error")
         then Raise (SystemExit 1) else Ret tt, p')
    | Some q =>
        (if bool_decide (event_type = "error")
         then Joining (SystemExit 1) else Ret tt,
         match put_nowait q (event_type, text) with
         | Some q' => set_callback_queue (Some q') p'
         | None => p'
         end)
    end.
Proof.
  intros Hfresh. unfold queue_event, remember.
  destruct (last_event p !! event_type) as [last|] eqn:Hlast.
  - rewrite bool_decide_eq_false_2 by congruence. cbn.
    destruct (callback_queue p); by case_bool_decide.
  - cbn. destruct (callback_queue p); by case_bool_decide.
Qed.

(** Whatever happens to the event, the cache ends up holding its text. *)
Lemma queue_event_last_event func event_type event_text p :
  last_event (queue_event func event_type event_text p).2 !! event_type
  = Some event_text.
Proof.
  destruct (decide (last_event p !! event_type = Some event_text)) as [Hs|Hf].
  - by rewrite queue_event_same.
  - rewrite queue_event_fresh by done. cbn.
    destruct (callback_queue p) as [q|]; cbn.
    + destruct (put_nowait q _); cbn; apply lookup_insert_eq.
    + apply lookup_insert_eq.
Qed.

(** C8. [queue_event] suppresses an event (returns at once, leaving the
    cache and the queue as they were) exactly when its kind is in the
    cache with an identical text; hence the second of two consecutive
    identical events is always suppressed, and of two identical ['info']
    events sent to a queue with room, starting from a cache that does not
    hold that text, exactly one is delivered. *)
Theorem queue_event_suppresses_repeats :
  (∀ func event_type event_text p,
     queue_event func event_type event_text p = (Ret tt, p)
     ↔ ∃ last, last_event p !! event_type = Some last ∧ last = event_text)
  ∧ (∀ func event_type event_text p,
       (queue_event func event_type event_text ;;
        queue_event func event_type event_text) p
       = queue_event func event_type event_text p)
  ∧ (∀ func event_text p q,
       callback_queue p = Some q →
       queue_full q = false →
       last_event p !! "info" ≠ Some event_text →
       ((queue_event func "info" event_text ;;
         queue_event func "info" event_text) p).1 = Ret tt
       ∧ callback_queue
           ((queue_event func "info" event_text ;;
             queue_event func "info" event_text) p).2
         = Some (mkQueue (q_items q ++ [("info", event_text)])
                   (q_pending q) (q_maxsize q))).
Proof.
  split; [|split].
  - intros func event_type event_text p. split.
    + intros Hq. exists event_text. split; [|done].
      pose proof (queue_event_last_event func event_type event_text p) as Hl.
      by rewrite Hq in Hl.
    + intros (last & Hl & ->). by apply queue_event_same.
  - intros func event_type event_text p.
    pose proof (queue_event_last_event func event_type event_text p) as Hl.
    unfold mbind, M_bind.
    destruct (queue_event func event_type event_text p) as [[[]|e|e] p'];
      [|done..].
    by apply queue_event_same.
  - intros func event_text p q Hq Hroom Hfresh.
    pose proof (queue_event_last_event func "info" event_text p) as Hl.
    unfold mbind, M_bind.
    rewrite (queue_event_fresh _ _ _ p Hfresh) in *. cbn in *.
    rewrite Hq in *. unfold put_nowait in *. rewrite Hroom in *. cbn in *.
    rewrite queue_event_same by done. done.
Qed.

End Emitter.

(** ** The fatal-error protocol *)

Section Fatal.

Implicit Types (s : System) (q : Queue) (e : exn).

Lemma join_invariant s0 s e :
  sys_producer s0 = Blocked e → rtc step s0 s → drained_into s0 s e.
Proof.
  intros Hblocked Hrun. induction Hrun as [s0|s0 s1 s2 Hstep Hrun IH].
  - left. done.
  - assert (Hcases :
      (sys_producer s1 = Blocked e
       ∧ sys_delivered s1 ++ q_items (sys_queue s1)
         = sys_delivered s0 ++ q_items (sys_queue s0))
      ∨ (sys_producer s1 = Terminated e
         ∧ unfinished_tasks (sys_queue s1) = 0%nat
         ∧ sys_delivered s1 = sys_delivered s0 ++ q_items (sys_queue s0))).
    { inversion Hstep; subst; cbn in *.
      - left. split; [done|]. by rewrite <- app_assoc.
      - left. done.
      - right. simplify_eq. split; [done|]. split; [done|].
        unfold unfinished_tasks in *.
        destruct (q_items q); [by rewrite app_nil_r | cbn in *; lia]. }
    destruct Hcases as [[Hb Heq]|(Ht & Hu & Heq)].
    + destruct (IH Hb) as [[Hb' Heq']|(Ht' & Hu' & Heq')].
      * left. split; [done|]. by rewrite Heq'.
      * right. split; [done|]. split; [done|].
        by rewrite Heq', <- Heq.
    + (* once terminated with nothing unfinished, no step is left *)
      assert (s2 = s1) as ->.
      { clear IH. destruct Hrun as [|s1 s1' s2 Hstep' _]; [done|].
        unfold unfinished_tasks in Hu.
        inversion Hstep'; subst; cbn in *; try lia. congruence. }
      right. done.
Qed.

Lemma join_drains_pending items pending maxsize delivered prod :
  rtc step (mkSystem (mkQueue items pending maxsize) delivered prod)
           (mkSystem (mkQueue items 0 maxsize) delivered prod).
Proof.
  induction pending as [|pending IH]; [done|].
  eapply rtc_l; [apply step_task_done | apply IH].
Qed.

(** A consumer that keeps reading releases the producer. *)
Lemma join_returns items pending maxsize delivered e :
  rtc step
    (mkSystem (mkQueue items pending maxsize) delivered (Blocked e))
    (mkSystem (mkQueue [] 0 maxsize) (delivered ++ items) (Terminated e)).
Proof.
  revert pending delivered.
  induction items as [|x items IH]; intros pending delivered.
  - rewrite app_nil_r. eapply rtc_trans; [apply join_drains_pending|].
    apply rtc_once. by apply step_join.
  - eapply rtc_l; [apply step_get|].
    replace (delivered ++ x :: items) with ((delivered ++ [x]) ++ items)
      by (by rewrite <- app_assoc).
    apply IH.
Qed.

(** C7, as the code has it. An ['error'] event that passes the cache,
    sent to a queue that is attached and has room, is put on the queue
    in its formatted form and leaves the producer blocked in [join];
    the producer can then only end with [SystemExit 1], only after the
    consumer has received every event queued before it and the error
    event, in order, and a consumer that keeps reading does release it.
    With no queue attached the process ends at once with [SystemExit 1]
    and nothing is enqueued. *)
Theorem queue_event_error_protocol func event_text p :
  last_event p !! "error" ≠ Some event_text →
  let r := queue_event func "error" event_text p in
  (∀ q, callback_queue p = Some q → queue_full q = false →
     let error_event := ("error", format_error event_text func) in
     let q' := mkQueue (q_items q ++ [error_event]) (q_pending q)
                 (q_maxsize q) in
     r = (Joining (SystemExit 1),
          set_callback_queue (Some q') (remember "error" event_text p))
     ∧ ∀ delivered,
         system_after delivered r
         = Some (mkSystem q' delivered (Blocked (SystemExit 1)))
         ∧ (∀ s e,
              rtc step (mkSystem q' delivered (Blocked (SystemExit 1))) s →
              sys_producer s = Terminated e →
              e = SystemExit 1
              ∧ sys_delivered s = delivered ++ q_items q ++ [error_event]
              ∧ unfinished_tasks (sys_queue s) = 0%nat)
         ∧ ∃ s,
             rtc step (mkSystem q' delivered (Blocked (SystemExit 1))) s
             ∧ sys_producer s = Terminated (SystemExit 1))
  ∧ (callback_queue p = None →
     r = (Raise (SystemExit 1), remember "error" event_text p)
     ∧ producer_after r.1 = Terminated (SystemExit 1)
     ∧ ∀ delivered, system_after delivered r = None).
Proof.
  intros Hfresh r. subst r. split.
  - intros q Hq Hroom error_event q'.
    assert (Hr : queue_event func "error" event_text p
                 = (Joining (SystemExit 1),
                    set_callback_queue (Some q')
                      (remember "error" event_text p))).
    { rewrite queue_event_fresh by done. cbn. rewrite Hq.
      unfold put_nowait. by rewrite Hroom. }
    split; [exact Hr|]. intros delivered. rewrite Hr.
    split; [done|]. split.
    + intros s e Hrun Hend.
      apply (join_invariant _ _ (SystemExit 1)) in Hrun; [|done].
      destruct Hrun as [[Hb _]|(Ht & Hu & Hd)]; [congruence|].
      cbn in Hd. split; [congruence|]. done.
    + eexists. split; [apply join_returns|done].
  - intros Hq.
    assert (Hr : queue_event func "error" event_text p
                 = (Raise (SystemExit 1), remember "error" event_text p)).
    { rewrite queue_event_fresh by done. cbn. by rewrite Hq. }
    rewrite Hr. split; [done|]. split; [done|].
    intros delivered. unfold system_after. cbn. by rewrite Hq.
Qed.

(** The protocol above at a concrete state: a fresh object with an
    unbounded queue holding one event. *)
Lemma queue_event_error_protocol_witness :
  let func := mkCodeInfo "run" "installation_process.py" 80 in
  let q := mkQueue [("info", EvStr "Installing...")] 0 0 in
  let p := new_Pac (Some q) (quiet_handle []) in
  last_event p !! "error" ≠ Some (EvStr "boom")
  ∧ queue_event func "error" (EvStr "boom") p
    = (Joining (SystemExit 1),
       set_callback_queue
         (Some (mkQueue
                  [("info", EvStr "Installing...");
                   ("error",
                    EvStr "boom: run in installation_process.py:80")] 0 0))
         (remember "error" (EvStr "boom") p)).
Proof.
  intros func q p.
  assert (Hfresh : last_event p !! "error" ≠ Some (EvStr "boom")) by done.
  split; [exact Hfresh|].
  exact (proj1 (proj1 (queue_event_error_protocol func (EvStr "boom") p Hfresh)
                  q eq_refl eq_refl)).
Defined.

(** C7 as stated fails: with no queue attached (the constructor's
    default) the error event is put on no queue and the process ends
    without waiting for any consumer; and on a full queue the error
    event is dropped: the producer still waits for the queue to empty
    and ends, but the consumer has then received the earlier event
    only. *)
Lemma queue_event_error_not_enqueued :
  let func := mkCodeInfo "run" "installation_process.py" 80 in
  let p := new_Pac None (quiet_handle []) in
  let full := mkQueue [("info", EvStr "Installing...")] 0 1 in
  let p' := new_Pac (Some full) (quiet_handle []) in
  (queue_event func "error" (EvStr "boom") p
   = (Raise (SystemExit 1), remember "error" (EvStr "boom") p)
   ∧ callback_queue (remember "error" (EvStr "boom") p) = None)
  ∧ (queue_event func "error" (EvStr "boom") p'
     = (Joining (SystemExit 1), remember "error" (EvStr "boom") p')
     ∧ system_after [] (queue_event func "error" (EvStr "boom") p')
       = Some (mkSystem full [] (Blocked (SystemExit 1)))
     ∧ ∀ s e,
         rtc step (mkSystem full [] (Blocked (SystemExit 1))) s →
         sys_producer s = Terminated e →
         sys_delivered s = [("info", EvStr "Installing...")]).
Proof.
  cbv zeta. split; [split; [by vm_compute | reflexivity]|].
  split; [by vm_compute|]. split; [by vm_compute|].
  intros s e Hrun Hend.
  apply (join_invariant _ _ (SystemExit 1)) in Hrun; [|done].
  destruct Hrun as [[Hb _]|(_ & _ & Hd)]; [congruence|done].
Qed.

End Fatal.

(** ** The download hook *)

Section Download.

Local Open Scope R_scope.

Implicit Types (p : Pac) (filename : string) (tx total : Z) (progress : R).

Lemma cb_dl_same_file filename tx total p progress :
  same_file filename total p →
  dl_progress total tx = Ok progress →
  cb_dl filename tx total p =
    if Rgt_dec progress (last_dl_progress p) then
      queue_event cb_dl_code "percent" (EvNum progress)
        (set_last_dl_progress progress p)
    else (Ret tt, p).
Proof.
  intros [Hname Htotal] Hprogress. unfold cb_dl.
  rewrite Hname, Htotal, Hprogress.
  rewrite bool_decide_eq_false_2 by (intros H; by apply H).
  rewrite bool_decide_eq_false_2 by (intros H; by apply H).
  done.
Qed.

(** C1. On a same-file call the fraction is handed to [queue_event] as
    a ['percent'] event, and stored as the last progress, when it is
    strictly greater than the stored one; otherwise the call changes
    nothing: no event, no store. Example: after the file is announced,
    [tx = 50] of [100] delivers [50/100] and [tx = 40] of [100] is
    suppressed. *)
Theorem cb_dl_progress_only_grows filename tx total p progress :
  same_file filename total p →
  dl_progress total tx = Ok progress →
  (progress > last_dl_progress p →
     cb_dl filename tx total p
     = queue_event cb_dl_code "percent" (EvNum progress)
         (set_last_dl_progress progress p)
     ∧ last_dl_progress (cb_dl filename tx total p).2 = progress
     ∧ last_event (cb_dl filename tx total p).2 !! "percent"
       = Some (EvNum progress))
  ∧ (progress <= last_dl_progress p →
       cb_dl filename tx total p = (Ret tt, p))
  ∧ (let p1 := (cb_dl "core.db" 50 100 announced).2 in
     let p2 := (cb_dl "core.db" 40 100 p1).2 in
     (q_items <$> callback_queue announced
      = Some [("info", EvStr "Updating core database"); ("percent", EvNum 0)])
     ∧ (q_items <$> callback_queue p1
        = Some [("info", EvStr "Updating core database"); ("percent", EvNum 0);
                ("percent", EvNum (IZR 50 / IZR 100))])
     ∧ last_dl_progress p1 = IZR 50 / IZR 100
     ∧ p2 = p1).
Proof.
  intros Hsame Hprogress.
  rewrite (cb_dl_same_file _ _ _ _ _ Hsame Hprogress).
  split; [|split].
  - intros Hgt. destruct (Rgt_dec progress (last_dl_progress p)); [|lra].
    split; [done|]. split.
    + destruct (decide (last_event (set_last_dl_progress progress p) !! "percent"
                        = Some (EvNum progress))) as [Hs|Hf].
      * by rewrite queue_event_same.
      * rewrite queue_event_fresh by done. cbn.
        destruct (callback_queue p) as [q|]; cbn; [|done].
        by destruct (put_nowait q _).
    + apply queue_event_last_event.
  - intros Hle. destruct (Rgt_dec progress (last_dl_progress p)); [lra|done].
  - cbv zeta.
    assert (Hann : announced =
      mkPac (Some (mkQueue [("info", EvStr "Updating core database");
                            ("percent", EvNum 0)] 0 0))
        (Some (quiet_handle [])) (Some "core.db"%string) 0 100%Z 0%Z 0%Z 0%Z
        (<["percent" := EvNum 0]>
           (<["info" := EvStr "Updating core database"]> ∅)) [] [])
      by (by vm_compute).
    assert (Hhalf : IZR 50 / IZR 100 > 0) by lra.
    assert (Hp1 : (cb_dl "core.db" 50 100 announced).2 =
      mkPac (Some (mkQueue [("info", EvStr "Updating core database");
                            ("percent", EvNum 0);
                            ("percent", EvNum (IZR 50 / IZR 100))] 0 0))
        (Some (quiet_handle [])) (Some "core.db"%string) (IZR 50 / IZR 100)
        100%Z 0%Z 0%Z 0%Z
        (<["percent" := EvNum (IZR 50 / IZR 100)]>
           (<["percent" := EvNum 0]>
              (<["info" := EvStr "Updating core database"]> ∅))) [] []).
    { rewrite Hann.
      rewrite (cb_dl_same_file _ _ _ _ (IZR 50 / IZR 100)); [|done|done].
      cbn [last_dl_progress].
      destruct (Rgt_dec (IZR 50 / IZR 100) 0); [|lra].
      rewrite queue_event_fresh.
      - reflexivity.
      - cbn. rewrite lookup_insert_eq. intros [= Heq]. lra. }
    rewrite Hp1. split; [by rewrite Hann|]. split; [done|]. split; [done|].
    rewrite (cb_dl_same_file _ _ _ _ (IZR 40 / IZR 100)); [|done|done].
    cbn [last_dl_progress].
    destruct (Rgt_dec (IZR 40 / IZR 100) (IZR 50 / IZR 100)); [lra|done].
Qed.

Lemma cb_dl_progress_only_grows_witness :
  same_file "core.db" 100 announced
  ∧ dl_progress 100 50 = Ok (IZR 50 / IZR 100)
  ∧ IZR 50 / IZR 100 > last_dl_progress announced
  ∧ cb_dl "core.db" 50 100 announced
    = queue_event cb_dl_code "percent" (EvNum (IZR 50 / IZR 100))
        (set_last_dl_progress (IZR 50 / IZR 100) announced).
Proof.
  assert (Hsame : same_file "core.db" 100 announced)
    by (split; vm_compute; reflexivity).
  assert (Hprogress : dl_progress 100 50 = Ok (IZR 50 / IZR 100))
    by reflexivity.
  assert (Hgt : IZR 50 / IZR 100 > last_dl_progress announced).
  { assert (last_dl_progress announced = 0) as -> by (vm_compute; reflexivity).
    lra. }
  split; [exact Hsame|]. split; [exact Hprogress|]. split; [exact Hgt|].
  exact (proj1 (proj1 (cb_dl_progress_only_grows "core.db" 50 100 announced
                         (IZR 50 / IZR 100) Hsame Hprogress) Hgt)).
Defined.

(** *** The curve used when the size of the file is unknown *)

Lemma ln_le_minus_1 x : 0 < x → ln x <= x - 1.
Proof.
  intros Hx. destruct (Rle_dec (ln x) (x - 1)) as [H|H]; [exact H|].
  exfalso. apply Rnot_le_lt in H. apply exp_increasing in H.
  rewrite exp_ln in H by exact Hx.
  pose proof (exp_ineq1_le (x - 1)). lra.
Qed.

Lemma ln_ge_1_minus_inv x : 0 < x → 1 - / x <= ln x.
Proof.
  intros Hx. pose proof (Rinv_0_lt_compat x Hx) as Hi.
  pose proof (ln_le_minus_1 (/ x) Hi) as H.
  rewrite ln_Rinv in H by exact Hx. lra.
Qed.

Lemma ln_le_compat x y : 0 < x → x <= y → ln x <= ln y.
Proof.
  intros Hx [Hlt| ->]; [left; by apply ln_increasing | right; reflexivity].
Qed.

Lemma ln_nonneg x : 1 <= x → 0 <= ln x.
Proof. intros Hx. rewrite <- ln_1. apply ln_le_compat; lra. Qed.

(** Powers of a ratio of integers are compared in [Z]. *)
Lemma pow_ratio_scaled (a b : Z) (n : nat) :
  (0 < b)%Z → 0 < IZR b ^ n ∧ (IZR a / IZR b) ^ n * IZR b ^ n = IZR a ^ n.
Proof.
  intros Hb. assert (Hb' : 0 < IZR b) by (by apply IZR_lt).
  split; [by apply pow_lt|].
  rewrite <- Rpow_mult_distr. f_equal. field. lra.
Qed.

Lemma pow_ratio_ge (a b c : Z) (n : nat) :
  (0 < b)%Z → (c * b ^ Z.of_nat n <= a ^ Z.of_nat n)%Z →
  IZR c <= (IZR a / IZR b) ^ n.
Proof.
  intros Hb H. apply IZR_le in H. rewrite mult_IZR, <- !pow_IZR in H.
  destruct (pow_ratio_scaled a b n Hb) as [Hp He].
  rewrite <- He in H. by apply Rmult_le_reg_r in H.
Qed.

Lemma pow_ratio_le (a b c : Z) (n : nat) :
  (0 < b)%Z → (a ^ Z.of_nat n <= c * b ^ Z.of_nat n)%Z →
  (IZR a / IZR b) ^ n <= IZR c.
Proof.
  intros Hb H. apply IZR_le in H. rewrite mult_IZR, <- !pow_IZR in H.
  destruct (pow_ratio_scaled a b n Hb) as [Hp He].
  rewrite <- He in H. by apply Rmult_le_reg_r in H.
Qed.

(** [ln 2] from [1.0109 ^ 64 >= 2 >= 1.01088 ^ 64] and
    [1 - 1/x <= ln x <= x - 1]. *)
Lemma ln_2_upper : ln 2 <= 6976 / 10000.
Proof.
  assert (H : 2 <= (10109 / 10000) ^ 64).
  { apply (pow_ratio_ge 10109 10000 2 64); [lia|]. by vm_compute. }
  apply ln_le_compat in H; [|lra].
  rewrite ln_pow in H by lra.
  pose proof (ln_le_minus_1 (10109 / 10000)) as Ha.
  rewrite INR_IZR_INZ in H. change (Z.of_nat 64) with 64%Z in H. lra.
Qed.

Lemma ln_2_lower : 6888 / 10000 <= ln 2.
Proof.
  assert (H : (101088 / 100000) ^ 64 <= 2).
  { apply (pow_ratio_le 101088 100000 2 64); [lia|]. by vm_compute. }
  apply ln_le_compat in H; [|apply pow_lt; lra].
  rewrite ln_pow in H by lra.
  pose proof (ln_ge_1_minus_inv (101088 / 100000)) as Hb.
  assert (Hi : / (101088 / 100000) = 100000 / 101088) by (field; lra).
  rewrite Hi in Hb.
  rewrite INR_IZR_INZ in H. change (Z.of_nat 64) with 64%Z in H. lra.
Qed.

Lemma dl_progress_unknown_total total tx :
  (total <= 0)%Z → (0 <= tx)%Z → dl_progress total tx = Ok (log_curve tx).
Proof.
  intros Htotal Htx. unfold dl_progress, log_curve, math_log.
  destruct (Z.ltb_spec 0 total) as [?|_]; [lia|].
  apply IZR_le in Htx.
  destruct (Rlt_dec 0 (1 + IZR tx / 1024)) as [_|Hneg]; [|lra].
  cbn. f_equal. field.
Qed.

Lemma dl_progress_known_total total tx :
  (0 < total)%Z → dl_progress total tx = Ok (IZR tx / IZR total).
Proof.
  intros Htotal. unfold dl_progress.
  by destruct (Z.ltb_spec 0 total) as [_|?]; [|lia].
Qed.

(** C6, as the code has it. The curve [(ln (1 + tx/1024))^2 / 200] is
    the same-file fraction when the total of the file itself (the
    [total] argument, kept in [last_dl_total_size]) is not positive,
    for every byte count [tx >= 0], whatever the aggregate
    [total_download_size] is; it is emitted and stored under the rule of
    growth. At [tx = 1024] it is [(ln 2)^2 / 200], which lies between
    [0.00235] and [0.00245]. *)
Theorem cb_dl_unknown_total_curve filename tx total p :
  same_file filename total p →
  (total <= 0)%Z →
  (0 <= tx)%Z →
  dl_progress (last_dl_total_size p) tx = Ok (log_curve tx)
  ∧ (log_curve tx > last_dl_progress p →
       cb_dl filename tx total p
       = queue_event cb_dl_code "percent" (EvNum (log_curve tx))
           (set_last_dl_progress (log_curve tx) p))
  ∧ (log_curve tx <= last_dl_progress p →
       cb_dl filename tx total p = (Ret tt, p))
  ∧ log_curve 1024 = ln 2 ^ 2 / 200
  ∧ 235 / 100000 < log_curve 1024 < 245 / 100000.
Proof.
  intros Hsame Htotal Htx.
  pose proof (dl_progress_unknown_total total tx Htotal Htx) as Hprogress.
  rewrite (cb_dl_same_file _ _ _ _ _ Hsame Hprogress).
  destruct Hsame as [_ ->].
  assert (Hsample : log_curve 1024 = ln 2 ^ 2 / 200).
  { unfold log_curve. do 2 f_equal. f_equal. lra. }
  split; [done|]. split; [|split; [|split; [done|]]].
  - intros Hgt. by destruct (Rgt_dec _ _); [|lra].
  - intros Hle. by destruct (Rgt_dec _ _); [lra|].
  - rewrite Hsample.
    pose proof ln_2_upper. pose proof ln_2_lower. split; nra.
Qed.

Lemma cb_dl_unknown_total_curve_witness :
  let p := set_last_dl_total_size 0
             (set_last_dl_filename (Some "core.db"%string)
                (new_Pac None (quiet_handle []))) in
  same_file "core.db" 0 p
  ∧ (0 <= 0)%Z
  ∧ (0 <= 1024)%Z
  ∧ dl_progress (last_dl_total_size p) 1024 = Ok (log_curve 1024)
  ∧ 235 / 100000 < log_curve 1024 < 245 / 100000.
Proof.
  intros p.
  assert (Hsame : same_file "core.db" 0 p) by (split; reflexivity).
  assert (Htotal : (0 <= 0)%Z) by lia.
  assert (Htx : (0 <= 1024)%Z) by lia.
  split; [exact Hsame|]. split; [exact Htotal|]. split; [exact Htx|].
  pose proof (cb_dl_unknown_total_curve "core.db" 1024 0 p Hsame Htotal Htx)
    as (Hcurve & _ & _ & _ & Hbounds).
  split; [exact Hcurve | exact Hbounds].
Defined.

(** C6 as stated fails: with the aggregate [total_download_size] at
    zero (a database refresh) and the size of the file known, the
    same-file fraction is [tx / total], here [50/100], and not the value
    of the curve, which is far smaller. *)
Lemma cb_dl_zero_aggregate_known_file_total :
  total_download_size announced = 0%Z
  ∧ same_file "core.db" 100 announced
  ∧ dl_progress (last_dl_total_size announced) 50 = Ok (IZR 50 / IZR 100)
  ∧ last_dl_progress (cb_dl "core.db" 50 100 announced).2 = IZR 50 / IZR 100
  ∧ log_curve 50 < IZR 50 / IZR 100.
Proof.
  assert (Hsame : same_file "core.db" 100 announced)
    by (split; vm_compute; reflexivity).
  split; [by vm_compute|]. split; [exact Hsame|].
  split; [reflexivity|]. split.
  - rewrite (cb_dl_same_file _ _ _ _ (IZR 50 / IZR 100) Hsame eq_refl).
    destruct (Rgt_dec _ _) as [_|Hn].
    + destruct (decide (last_event
                          (set_last_dl_progress (IZR 50 / IZR 100) announced)
                        !! "percent" = Some (EvNum (IZR 50 / IZR 100))))
        as [Hs|Hf].
      * by rewrite queue_event_same.
      * rewrite queue_event_fresh by done. cbn.
        destruct (callback_queue announced) as [q|]; cbn; [|done].
        by destruct (put_nowait q _).
    + exfalso. apply Hn. assert (last_dl_progress announced = 0) as -> by
        (by vm_compute). lra.
  - unfold log_curve.
    pose proof (ln_le_minus_1 (1 + 50 / 1024)) as Hu.
    pose proof (ln_nonneg (1 + 50 / 1024)) as Hl.
    assert (0 <= ln (1 + 50 / 1024) <= 1) as Hb by lra.
    nra.
Qed.

End Download.

(** ** Finalising a transaction *)

Section Finalize.

Implicit Types (p : Pac) (transaction : Transaction) (e : exn).

Lemma releases_app calls calls' :
  releases (calls ++ calls') = (releases calls + releases calls')%nat.
Proof. unfold releases. by rewrite List.filter_app, length_app. Qed.

Lemma releases_phase_calls transaction p :
  releases (phase_calls transaction p) = 0%nat.
Proof. unfold phase_calls. by destruct (t_prepare _ _). Qed.

(** The whole behaviour of [finalize_transaction], by the answer of the
    phases. *)
Lemma finalize_transaction_unfold transaction p :
  release_returns transaction →
  finalize_transaction transaction p =
    let calls := engine_calls p ++ phase_calls transaction p ++ [CRelease] in
    match phases transaction p with
    | Ok _ => (Ret true, set_engine_calls calls p)
    | Err (PyalpmError err) =>
        (Ret false,
         set_engine_calls calls
           (logging ERROR
              (py_format "Can't finalize alpm transaction: %s" [err]) p))
    | Err _ => (Ret true, set_engine_calls calls p)
    end.
Proof.
  intros Hrelease. unfold finalize_transaction, phases, phase_calls, engine_call.
  destruct (t_prepare transaction (engine_calls p)) as [[]|e] eqn:Hprepare; cbn.
  - destruct (t_commit transaction _) as [[]|e] eqn:Hcommit; cbn.
    + rewrite Hrelease. cbn. by rewrite <- !app_assoc.
    + destruct e; cbn; rewrite Hrelease; cbn; by rewrite <- !app_assoc.
  - destruct e; cbn; rewrite Hrelease; cbn; by rewrite <- !app_assoc.
Qed.

Lemma finalize_transaction_calls transaction p :
  release_returns transaction →
  engine_calls (finalize_transaction transaction p).2
  = engine_calls p ++ phase_calls transaction p ++ [CRelease].
Proof.
  intros Hrelease. rewrite (finalize_transaction_unfold _ _ Hrelease).
  cbv zeta. by destruct (phases transaction p) as [|[]].
Qed.

Lemma finalize_transaction_releases_once transaction p :
  release_returns transaction →
  releases (engine_calls (finalize_transaction transaction p).2)
  = S (releases (engine_calls p)).
Proof.
  intros Hrelease. rewrite (finalize_transaction_calls _ _ Hrelease).
  rewrite !releases_app, releases_phase_calls. cbn. lia.
Qed.

(** Should [release] itself raise, the [return] of the [finally] block
    is not reached and the exception goes to the caller. *)
Lemma finalize_transaction_release_raises transaction p e :
  (∀ calls, t_release transaction calls = Err e) →
  (finalize_transaction transaction p).1 = Raise e.
Proof.
  intros Hrelease. unfold finalize_transaction, engine_call.
  destruct (t_prepare transaction (engine_calls p)) as [[]|e1]; cbn.
  - destruct (t_commit transaction _) as [[]|[]]; cbn; by rewrite Hrelease.
  - destruct e1; cbn; by rewrite Hrelease.
Qed.

(** C2, as the code has it. For a transaction whose [release] returns,
    [finalize_transaction] calls [prepare], then [commit] when
    [prepare] returned, then [release]; an engine error of either phase
    is logged and the result is [False], not an exception; and on every
    path (both phases succeed, [prepare] fails, [commit] fails) exactly
    one [release] is made. *)
Theorem finalize_transaction_two_phase transaction p :
  release_returns transaction →
  let r := finalize_transaction transaction p in
  engine_calls r.2
  = engine_calls p ++ phase_calls transaction p ++ [CRelease]
  ∧ releases (engine_calls r.2) = S (releases (engine_calls p))
  ∧ (phases transaction p = Ok tt →
       phase_calls transaction p = [CPrepare; CCommit]
       ∧ r.1 = Ret true ∧ logged r.2 = logged p)
  ∧ (∀ err, phases transaction p = Err (PyalpmError err) →
       r.1 = Ret false
       ∧ logged r.2
         = logged p
           ++ [(ERROR, py_format "Can't finalize alpm transaction: %s" [err])]).
Proof.
  intros Hrelease r. subst r.
  pose proof (finalize_transaction_calls _ p Hrelease) as Hcalls.
  split; [done|]. split; [|split].
  - by apply finalize_transaction_releases_once.
  - intros Hok. rewrite (finalize_transaction_unfold _ _ Hrelease). cbv zeta.
    rewrite Hok. cbn. split; [|done].
    unfold phases, phase_calls in *.
    by destruct (t_prepare transaction (engine_calls p)).
  - intros err Herr. rewrite (finalize_transaction_unfold _ _ Hrelease).
    cbv zeta. by rewrite Herr.
Qed.

Lemma finalize_transaction_two_phase_witness :
  let p := new_Pac None (quiet_handle []) in
  let r := finalize_transaction failing_commit p in
  release_returns failing_commit
  ∧ engine_calls r.2 = [CPrepare; CCommit; CRelease]
  ∧ r.1 = Ret false
  ∧ logged r.2
    = [(ERROR, "Can't finalize alpm transaction: transaction failed"%string)].
Proof.
  intros p r.
  assert (Hrelease : release_returns failing_commit) by (intros calls; reflexivity).
  split; [exact Hrelease|].
  pose proof (finalize_transaction_two_phase failing_commit p Hrelease)
    as (Hcalls & _ & _ & Herr).
  split; [exact Hcalls|].
  exact (Herr "transaction failed"%string eq_refl).
Defined.

(** C2 as stated fails when [release] raises too: [prepare] fails with
    an engine error, the error is logged, [release] is called once and
    its own error leaves [finalize_transaction], which does not answer
    [False]. *)
Lemma finalize_transaction_raises_when_release_fails :
  let p := new_Pac None (quiet_handle []) in
  let r := finalize_transaction failing_prepare_and_release p in
  phases failing_prepare_and_release p
  = Err (PyalpmError "could not prepare transaction")
  ∧ r.1 = Raise (PyalpmError "unable to release transaction")
  ∧ r.1 ≠ Ret false
  ∧ engine_calls r.2 = [CPrepare; CRelease]
  ∧ logged r.2
    = [(ERROR,
        "Can't finalize alpm transaction: could not prepare transaction"%string)].
Proof.
  cbv zeta. split; [reflexivity|]. split; [reflexivity|].
  split; [discriminate|]. split; reflexivity.
Qed.

(** C10, as the code has it. For a transaction whose [release]
    returns, no exception leaves [finalize_transaction]: the [return]
    in the [finally] block discards whatever is in flight. An exception
    of [prepare] or [commit] that is not an engine error is therefore
    lost: the transaction is released once, nothing is logged, and the
    result is [True]. *)
Theorem finalize_transaction_swallows_exceptions transaction p :
  release_returns transaction →
  let r := finalize_transaction transaction p in
  (∃ all_ok, r.1 = Ret all_ok)
  ∧ (∀ e, phases transaction p = Err e →
       (∀ msg, e ≠ PyalpmError msg) →
       r.1 = Ret true
       ∧ releases (engine_calls r.2) = S (releases (engine_calls p))
       ∧ logged r.2 = logged p).
Proof.
  intros Hrelease r.
  pose proof (finalize_transaction_releases_once transaction p Hrelease)
    as Hreleases.
  subst r. split.
  - rewrite (finalize_transaction_unfold _ _ Hrelease). cbv zeta.
    destruct (phases transaction p) as [|[]]; eauto.
  - intros e He Hother. split; [|split; [exact Hreleases|]].
    + rewrite (finalize_transaction_unfold _ _ Hrelease). cbv zeta.
      rewrite He. destruct e; [by destruct (Hother msg)|done..].
    + rewrite (finalize_transaction_unfold _ _ Hrelease). cbv zeta.
      rewrite He. destruct e; [by destruct (Hother msg)|done..].
Qed.

Lemma finalize_transaction_swallows_exceptions_witness :
  let p := new_Pac None (quiet_handle []) in
  let r := finalize_transaction crashing_prepare p in
  release_returns crashing_prepare
  ∧ phases crashing_prepare p = Err (BuiltinExc "MemoryError")
  ∧ r.1 = Ret true
  ∧ releases (engine_calls r.2) = 1%nat
  ∧ logged r.2 = [].
Proof.
  intros p r.
  assert (Hrelease : release_returns crashing_prepare)
    by (intros calls; reflexivity).
  assert (Hother : ∀ msg, BuiltinExc "MemoryError" ≠ PyalpmError msg)
    by (intros msg; discriminate).
  split; [exact Hrelease|]. split; [reflexivity|].
  exact (proj2 (finalize_transaction_swallows_exceptions crashing_prepare p
                  Hrelease) (BuiltinExc "MemoryError") eq_refl Hother).
Defined.

(** C10 as stated fails: [release] runs inside the [finally] block,
    before its [return], so an exception of [release] is not
    suppressed. Here [prepare] fails with an exception that is not an
    engine error, [release] is called and fails, and the caller gets
    the error of [release] instead of [True]. *)
Lemma finalize_transaction_propagates_release_error :
  let p := new_Pac None (quiet_handle []) in
  let r := finalize_transaction crashing_prepare_failing_release p in
  phases crashing_prepare_failing_release p = Err (BuiltinExc "MemoryError")
  ∧ r.1 = Raise (PyalpmError "unable to release transaction")
  ∧ r.1 ≠ Ret true
  ∧ engine_calls r.2 = [CPrepare; CRelease]
  ∧ logged r.2 = [].
Proof.
  cbv zeta. split; [reflexivity|]. split; [reflexivity|].
  split; [discriminate|]. split; reflexivity.
Qed.

End Finalize.

(** ** Creating a transaction *)

Section InitTransaction.

Context `{PyalpmConsts}.

Implicit Types (p : Pac) (options : gmap string PyVal) (flags : TransFlags).

Lemma py_gt_escalates v b0 b1 :
  py_gt v 0 = Ok b0 → py_gt v 1 = Ok b1 → b1 = true → b0 = true.
Proof.
  destruct v as [|[]|z|]; cbn; intros [= <-] [= <-]; try done.
  intros Hgt. apply Z.ltb_lt in Hgt. apply Z.ltb_lt. lia.
Qed.

Lemma py_eq_int_functional v n m :
  n ≠ m → ¬ (py_eq_int v n = true ∧ py_eq_int v m = true).
Proof.
  intros Hnm [Hn Hm].
  destruct v as [|b|z|]; cbn in *; try done;
    apply Z.eqb_eq in Hn, Hm; congruence.
Qed.

Lemma transaction_options_consistent options flags :
  transaction_options options = Ok flags →
  (recurseall flags = true → recurse flags = true)
  ∧ (PKG_REASON_DEPEND ≠ PKG_REASON_EXPLICIT →
     ¬ (alldeps flags = true ∧ allexplicit flags = true)).
Proof.
  unfold transaction_options. intros Hflags.
  destruct (py_gt (dict_get options "recursive" (PyInt 0)) 0) as [b0|]
    eqn:H0; [|done].
  destruct (py_gt (dict_get options "recursive" (PyInt 0)) 1) as [b1|]
    eqn:H1; [|done].
  cbn in Hflags. injection Hflags as <-. cbn. split.
  - by apply (py_gt_escalates _ _ _ H0 H1).
  - intros Hneq. by apply py_eq_int_functional.
Qed.

(** C9. On a transaction that [init_transaction] created, the
    recurse-all flag is never set without the recurse flag, and the
    flags alldeps and allexplicit, both read from the one ['mode']
    entry, are never set together (the two reasons being distinct
    constants of pyalpm). *)
Theorem init_transaction_flags options p transaction p' :
  PKG_REASON_DEPEND ≠ PKG_REASON_EXPLICIT →
  init_transaction options p = (Ret (Some transaction), p') →
  ∃ flags,
    transaction_options options = Ok flags
    ∧ engine_calls p' = engine_calls p ++ [CInitTransaction flags]
    ∧ (recurseall flags = true → recurse flags = true)
    ∧ ¬ (alldeps flags = true ∧ allexplicit flags = true).
Proof.
  intros Hneq. unfold init_transaction, engine_call.
  destruct (handle p) as [h|]; [|done].
  destruct (transaction_options options) as [flags|e] eqn:Hflags.
  - destruct (h_init_transaction h flags (engine_calls p)) as [t|[]];
      [|done..].
    intros [= _ <-]. exists flags.
    destruct (transaction_options_consistent _ _ Hflags) as [Hr Hm].
    split; [done|]. split; [done|]. split; [done|]. by apply Hm.
  - by destruct e.
Qed.

End InitTransaction.

(** [recursive = 2] escalates both flags; [mode] is the dependency
    reason. *)
Lemma init_transaction_flags_witness :
  let options : gmap string PyVal :=
    <["recursive" := PyInt 2]> (<["mode" := PyInt 1]> ∅) in
  let p := new_Pac None (quiet_handle []) in
  let flags := mkTransFlags (PyBool false) (PyBool false) (PyBool false)
                 (PyBool false) (PyBool false) (PyBool false) (PyBool false)
                 true true (PyBool false) true false in
  @PKG_REASON_DEPEND libalpm_consts ≠ @PKG_REASON_EXPLICIT libalpm_consts
  ∧ @init_transaction libalpm_consts options p
    = (Ret (Some quiet_transaction), set_engine_calls [CInitTransaction flags] p)
  ∧ ∃ flags',
      @transaction_options libalpm_consts options = Ok flags'
      ∧ [CInitTransaction flags] = [] ++ [CInitTransaction flags']
      ∧ (recurseall flags' = true → recurse flags' = true)
      ∧ ¬ (alldeps flags' = true ∧ allexplicit flags' = true).
Proof.
  intros options p flags.
  assert (Hneq : @PKG_REASON_DEPEND libalpm_consts
                 ≠ @PKG_REASON_EXPLICIT libalpm_consts) by (cbn; lia).
  assert (Hinit : @init_transaction libalpm_consts options p
                  = (Ret (Some quiet_transaction),
                     set_engine_calls [CInitTransaction flags] p))
    by (vm_compute; reflexivity).
  split; [exact Hneq|]. split; [exact Hinit|].
  exact (@init_transaction_flags libalpm_consts options p quiet_transaction
           _ Hneq Hinit).
Defined.

(** ** Refreshing the databases *)

Section Refresh.

Context `{PyalpmConsts}.

Implicit Types (p : Pac) (h : Handle) (db : DB) (dbs : list DB).

Lemma set_engine_calls_same p : set_engine_calls (engine_calls p) p = p.
Proof. by destruct p. Qed.

Lemma set_engine_calls_twice calls calls' p :
  set_engine_calls calls (set_engine_calls calls' p) = set_engine_calls calls p.
Proof. reflexivity. Qed.

Lemma transaction_options_empty : transaction_options ∅ = Ok default_flags.
Proof. reflexivity. Qed.

Lemma init_transaction_default p h t :
  handle p = Some h →
  h_init_transaction h default_flags (engine_calls p) = Ok t →
  init_transaction ∅ p
  = (Ret (Some t),
     set_engine_calls (engine_calls p ++ [CInitTransaction default_flags]) p).
Proof.
  intros Hh Ht. unfold init_transaction. rewrite Hh, transaction_options_empty.
  unfold engine_call. by rewrite Ht.
Qed.

Lemma do_refresh_loop_completes dbs p h :
  handle p = Some h →
  transactions_available h →
  Forall update_returns dbs →
  do_refresh_loop dbs p
  = (Ret tt, set_engine_calls (engine_calls p ++ refresh_calls dbs) p).
Proof.
  intros Hh Hinit Hupdates. revert p Hh.
  induction Hupdates as [|db dbs Hdb _ IH]; intros p Hh.
  - cbn. unfold refresh_calls. cbn.
    by rewrite app_nil_r, set_engine_calls_same.
  - destruct (Hinit (engine_calls p)) as (t & Ht & Hrelease).
    cbn [do_refresh_loop]. run_bind.
    rewrite (init_transaction_default _ _ _ Hh Ht).
    run_bind; unfold engine, engine_call; cbn.
    destruct (Hdb (engine_calls p ++ [CInitTransaction default_flags]))
      as [updated ->]. cbn.
    run_bind; unfold engine, engine_call; cbn.
    rewrite Hrelease. cbn.
    rewrite IH by done. rewrite !set_engine_calls_twice. cbn.
    unfold refresh_calls. cbn. by rewrite <- !app_assoc.
Qed.

Lemma do_refresh_loop_aborts before db after p h e :
  handle p = Some h →
  transactions_available h →
  Forall update_returns before →
  (∀ calls, db_update db true calls = Err e) →
  do_refresh_loop (before ++ db :: after) p
  = (Raise e,
     set_engine_calls
       (engine_calls p ++ refresh_calls before
        ++ [CInitTransaction default_flags; CUpdate (db_name db) true]) p).
Proof.
  intros Hh Hinit Hbefore Hfails. revert p Hh.
  induction Hbefore as [|db0 dbs Hdb _ IH]; intros p Hh.
  - destruct (Hinit (engine_calls p)) as (t & Ht & Hrelease).
    cbn [app do_refresh_loop]. run_bind.
    rewrite (init_transaction_default _ _ _ Hh Ht).
    run_bind; unfold engine, engine_call; cbn.
    rewrite Hfails. cbn. unfold refresh_calls. cbn.
    by rewrite <- !app_assoc.
  - destruct (Hinit (engine_calls p)) as (t & Ht & Hrelease).
    cbn [app do_refresh_loop]. run_bind.
    rewrite (init_transaction_default _ _ _ Hh Ht).
    run_bind; unfold engine, engine_call; cbn.
    destruct (Hdb (engine_calls p ++ [CInitTransaction default_flags]))
      as [updated ->]. cbn.
    run_bind; unfold engine, engine_call; cbn.
    rewrite Hrelease. cbn.
    rewrite IH by done. rewrite !set_engine_calls_twice. cbn.
    unfold refresh_calls. cbn. by rewrite <- !app_assoc.
Qed.

(** C3, as the code has it. On an initialised handle that creates a
    transaction whenever asked, each of which can be released: an
    update that returns, whatever its answer, does not end the loop;
    when every update returns, [do_refresh] visits every configured
    database in order, each under a transaction of its own that is
    released before the next is created, and answers [True]. An update
    that raises ends [do_refresh] with that exception, and no later
    database is updated. *)
Theorem do_refresh_continues_while_updates_return p h :
  handle p = Some h →
  transactions_available h →
  (Forall update_returns (get_syncdbs h) →
   do_refresh p
   = (Ret true,
      set_engine_calls (engine_calls p ++ refresh_calls (get_syncdbs h)) p))
  ∧ (∀ before db after e,
       get_syncdbs h = before ++ db :: after →
       Forall update_returns before →
       (∀ calls, db_update db true calls = Err e) →
       (do_refresh p).1 = Raise e
       ∧ ∃ rest,
           engine_calls (do_refresh p).2
           = engine_calls p ++ refresh_calls before
             ++ CInitTransaction default_flags
                :: CUpdate (db_name db) true :: rest
           ∧ List.filter is_update rest = []).
Proof.
  intros Hh Hinit. unfold do_refresh. rewrite Hh. split.
  - intros Hupdates. unfold mbind, M_bind.
    by rewrite (do_refresh_loop_completes _ _ _ Hh Hinit Hupdates).
  - intros before db after e -> Hbefore Hfails. unfold mbind, M_bind.
    rewrite (do_refresh_loop_aborts _ _ _ _ _ _ Hh Hinit Hbefore Hfails).
    cbn. split; [done|]. by exists [].
Qed.

End Refresh.

Lemma do_refresh_continues_while_updates_return_witness :
  let h := quiet_handle [quiet_db "core" []; quiet_db "extra" []] in
  let p := new_Pac None h in
  handle p = Some h
  ∧ transactions_available h
  ∧ Forall update_returns (get_syncdbs h)
  ∧ @do_refresh libalpm_consts p
    = (Ret true,
       set_engine_calls
         [CInitTransaction default_flags; CUpdate "core" true; CRelease;
          CInitTransaction default_flags; CUpdate "extra" true; CRelease] p).
Proof.
  intros h p.
  assert (Hh : handle p = Some h) by reflexivity.
  assert (Hinit : transactions_available h).
  { intros calls. exists quiet_transaction. split; [reflexivity|].
    intros calls'. reflexivity. }
  assert (Hupdates : Forall update_returns (get_syncdbs h)).
  { repeat constructor; intros calls; exists true; reflexivity. }
  split; [exact Hh|]. split; [exact Hinit|]. split; [exact Hupdates|].
  exact (proj1 (@do_refresh_continues_while_updates_return libalpm_consts p h
                  Hh Hinit) Hupdates).
Defined.

(** C3 as stated fails: the update of the first of two databases raises
    an engine error; [do_refresh] ends with it, the second database is
    never updated, and the transaction opened for the first one is not
    released. *)
Lemma do_refresh_stops_at_failed_update :
  let h := quiet_handle [broken_db "core"; quiet_db "extra" []] in
  let r := @do_refresh libalpm_consts (new_Pac None h) in
  r.1 = Raise (PyalpmError "unable to update database")
  ∧ engine_calls r.2 = [CInitTransaction default_flags; CUpdate "core" true]
  ∧ releases (engine_calls r.2) = 0%nat.
Proof. cbv zeta. by vm_compute. Qed.

(** ** Installing packages *)

Section Install.

Context `{PySet} `{PyalpmConsts}.

Implicit Types (p : Pac) (h : Handle) (repos : list (string * DB))
  (conflicts targets pkgs : list string) (name : string).

Lemma group_members_filtered conflicts targets (group_pkgs : list Pkg) :
  foldl (λ targets group_pkg,
           if bool_decide (pkg_name group_pkg ∈ conflicts) then targets
           else targets ++ [pkg_name group_pkg]) targets group_pkgs
  = targets ++ List.filter (λ n, negb (bool_decide (n ∈ conflicts)))
                 (pkg_name <$> group_pkgs).
Proof.
  revert targets. induction group_pkgs as [|g gs IH]; intros targets; cbn.
  - by rewrite app_nil_r.
  - rewrite IH. case_bool_decide; cbn; [done|]. by rewrite <- app_assoc.
Qed.

Lemma resolve_name_spec h repos conflicts targets name p :
  resolve_name h repos conflicts targets name p
  = (Ret (targets ++ contributed h repos conflicts name),
     diagnosed h repos name p).
Proof.
  unfold resolve_name, contributed, diagnosed.
  destruct (find_sync_package name repos) as [pkg|msg].
  - case_bool_decide; cbn; [by rewrite app_nil_r|done].
  - destruct (get_group_pkgs h name) as [group_pkgs|]; cbn.
    + by rewrite group_members_filtered.
    + by rewrite app_nil_r.
Qed.

(** The first loop never raises: it returns the contributions of the
    names, in order, and logs the names it could not find. *)
Lemma resolve_targets_spec h repos conflicts targets pkgs p :
  resolve_targets h repos conflicts targets pkgs p
  = (Ret (targets ++ (pkgs ≫= contributed h repos conflicts)),
     foldl (λ p name, diagnosed h repos name p) p pkgs).
Proof.
  revert targets p. induction pkgs as [|name pkgs IH]; intros targets p; cbn.
  - by rewrite app_nil_r.
  - run_bind. rewrite resolve_name_spec, IH.
    by rewrite <- app_assoc.
Qed.

Lemma contributed_not_in_conflicts h repos conflicts name n :
  n ∈ contributed h repos conflicts name → n ∉ conflicts.
Proof.
  unfold contributed.
  destruct (find_sync_package name repos) as [pkg|msg].
  - case_bool_decide; [by intros ?%elem_of_nil|].
    by intros ->%list_elem_of_singleton.
  - destruct (get_group_pkgs h name) as [group_pkgs|];
      [|by intros ?%elem_of_nil].
    rewrite list_elem_of_In, List.filter_In. intros [_ Hn].
    apply negb_true_iff in Hn. by apply bool_decide_eq_false in Hn.
Qed.

Lemma diagnosed_engine_calls h repos pkgs p :
  engine_calls (foldl (λ p name, diagnosed h repos name p) p pkgs)
  = engine_calls p.
Proof.
  revert p. induction pkgs as [|name pkgs IH]; intros p; cbn; [done|].
  rewrite IH. unfold diagnosed.
  destruct (find_sync_package name repos); [done|].
  by destruct (get_group_pkgs h name).
Qed.

Lemma NoDup_only (l : list string) a :
  NoDup l → (∀ x, x ∈ l ↔ x = a) → l = [a].
Proof.
  intros Hnodup Hl. destruct l as [|x l].
  - exfalso. apply (elem_of_nil a). by apply Hl.
  - assert (x = a) as -> by (apply Hl; left).
    destruct l as [|y l]; [done|].
    assert (y = a) as -> by (apply Hl; right; left).
    apply NoDup_cons in Hnodup as [Hnotin _]. destruct Hnotin. left.
Qed.

(** C4. The targets of [do_install] are a duplicate-free list none of
    whose members is in [conflicts], and the requested names are
    resolved once each. With the names [A, A, B], the conflicts [B], and
    both names found as sync packages, the targets are exactly [A]:
    [do_install] goes on as with the target list [A]. *)
Theorem do_install_resolves_targets p h options a b :
  handle p = Some h →
  find_sync_package "A" (repos_of h) = inl a → pkg_name a = "A" →
  find_sync_package "B" (repos_of h) = inl b → pkg_name b = "B" →
  let entered :=
    logging DEBUG "Cnchi will install a list of packages like pacman -S" p in
  (∃ targets,
     resolve_targets h (repos_of h) ["B"] [] (list_set ["A"; "A"; "B"]) entered
     = (Ret targets, entered)
     ∧ list_set targets = ["A"])
  ∧ do_install ["A"; "A"; "B"] ["B"] options p
    = install_targets (repos_of h) ["A"] options entered
  ∧ (∀ pkgs conflicts p0,
       NoDup (list_set pkgs)
       ∧ ∃ targets p1,
           resolve_targets h (repos_of h) conflicts [] (list_set pkgs) p0
           = (Ret targets, p1)
           ∧ NoDup (list_set targets)
           ∧ ∀ n, n ∈ list_set targets → n ∉ conflicts).
Proof.
  intros Hh Ha Hna Hb Hnb entered.
  set (names := list_set ["A"; "A"; "B"]).
  assert (Hnames : ∀ x, x ∈ names → x = "A" ∨ x = "B").
  { intros x Hx. unfold names in Hx. rewrite list_set_elem in Hx.
    repeat (apply elem_of_cons in Hx as [->|Hx]; [by eauto|]).
    by apply elem_of_nil in Hx. }
  assert (HA : "A" ∈ names) by (unfold names; rewrite list_set_elem; left).
  assert (HcA : contributed h (repos_of h) ["B"] "A" = ["A"]).
  { unfold contributed. rewrite Ha, Hna.
    rewrite bool_decide_eq_false_2; [done|].
    by intros ?%list_elem_of_singleton. }
  assert (HcB : contributed h (repos_of h) ["B"] "B" = []).
  { unfold contributed. rewrite Hb, Hnb.
    rewrite bool_decide_eq_true_2; [done|]. left. }
  assert (Hquiet : ∀ l p0, (∀ x, x ∈ l → x = "A" ∨ x = "B") →
            foldl (λ p name, diagnosed h (repos_of h) name p) p0 l = p0).
  { induction l as [|x l IH]; intros p0 Hl; cbn; [done|].
    rewrite IH by (intros y Hy; apply Hl; by right).
    unfold diagnosed. destruct (Hl x) as [-> | ->]; [left|..].
    - by rewrite Ha.
    - by rewrite Hb. }
  assert (Htargets : list_set (names ≫= contributed h (repos_of h) ["B"])
                     = ["A"]).
  { apply NoDup_only; [apply list_set_NoDup|].
    intros x. rewrite list_set_elem, list_elem_of_bind. split.
    - intros (y & Hx & Hy). destruct (Hnames y Hy) as [-> | ->].
      + rewrite HcA in Hx. by apply list_elem_of_singleton in Hx.
      + rewrite HcB in Hx. by apply elem_of_nil in Hx.
    - intros ->. exists "A". split; [|done]. rewrite HcA. left. }
  split; [|split].
  - eexists. rewrite resolve_targets_spec, (Hquiet _ _ Hnames).
    split; [reflexivity|]. exact Htargets.
  - unfold do_install. rewrite Hh.
    run_bind. cbn [log].
    rewrite bool_decide_eq_false_2 by done.
    run_bind.
    fold (repos_of h). fold names. fold entered.
    rewrite resolve_targets_spec, (Hquiet _ _ Hnames). cbn [app].
    by rewrite Htargets.
  - intros pkgs conflicts p0. split; [apply list_set_NoDup|].
    eexists _, _. rewrite resolve_targets_spec.
    split; [reflexivity|]. split; [apply list_set_NoDup|].
    intros n. rewrite list_set_elem. cbn [app].
    rewrite list_elem_of_bind. intros (y & Hn & _).
    by apply contributed_not_in_conflicts in Hn.
Qed.

(** C5. With no name requested, [do_install] returns the empty list:
    no engine call is made and nothing but the opening debug line is
    logged. With names requested and no target left after resolution
    and filtering, it logs the error and returns [False], again without
    any engine call: no transaction is created, hence none committed. *)
Theorem do_install_empty_cases p h conflicts options :
  handle p = Some h →
  let entered :=
    logging DEBUG "Cnchi will install a list of packages like pacman -S" p in
  (do_install [] conflicts options p = (Ret EmptyList, entered)
   ∧ engine_calls entered = engine_calls p)
  ∧ (∀ pkgs targets p1,
       pkgs ≠ [] →
       resolve_targets h (repos_of h) conflicts [] (list_set pkgs) entered
       = (Ret targets, p1) →
       list_set targets = [] →
       do_install pkgs conflicts options p
       = (Ret (Bool false), logging ERROR "No targets found" p1)
       ∧ engine_calls (logging ERROR "No targets found" p1) = engine_calls p).
Proof.
  intros Hh entered. split.
  - unfold do_install. rewrite Hh. done.
  - intros pkgs targets p1 Hpkgs Hresolve Hempty. split.
    + unfold do_install. rewrite Hh.
      run_bind. cbn [log].
      rewrite bool_decide_eq_false_2 by (by destruct pkgs).
      run_bind.
      unfold gettext. fold (repos_of h). fold entered. rewrite Hresolve.
      unfold install_targets. by rewrite Hempty.
    + rewrite resolve_targets_spec in Hresolve. injection Hresolve as _ <-.
      cbn. by rewrite diagnosed_engine_calls.
Qed.

End Install.

Lemma do_install_resolves_targets_witness :
  let p := new_Pac None core_AB in
  let r := @do_install gset_order libalpm_consts ["A"; "A"; "B"] ["B"] ∅ p in
  handle p = Some core_AB
  ∧ find_sync_package "A" (repos_of core_AB) = inl (mkPkg "A")
  ∧ find_sync_package "B" (repos_of core_AB) = inl (mkPkg "B")
  ∧ r = @install_targets libalpm_consts (repos_of core_AB) ["A"] ∅
          (logging DEBUG "Cnchi will install a list of packages like pacman -S" p)
  ∧ r.1 = Ret (Bool true)
  ∧ engine_calls r.2
    = [CInitTransaction default_flags; CAddPkg "A"; CPrepare; CCommit; CRelease]
  ∧ total_packages_to_download r.2 = 1.
Proof.
  intros p r.
  assert (Hh : handle p = Some core_AB) by reflexivity.
  assert (Ha : find_sync_package "A" (repos_of core_AB) = inl (mkPkg "A"))
    by (vm_compute; reflexivity).
  assert (Hb : find_sync_package "B" (repos_of core_AB) = inl (mkPkg "B"))
    by (vm_compute; reflexivity).
  split; [exact Hh|]. split; [exact Ha|]. split; [exact Hb|].
  split; [|by vm_compute].
  exact (proj1 (proj2 (@do_install_resolves_targets gset_order libalpm_consts
                         p core_AB ∅ (mkPkg "A") (mkPkg "B")
                         Hh Ha eq_refl Hb eq_refl))).
Defined.

Lemma do_install_empty_cases_witness :
  let p := new_Pac None core_AB in
  let entered :=
    logging DEBUG "Cnchi will install a list of packages like pacman -S" p in
  let diagnosed :=
    logging ERROR "Can't find a package or group called 'nonexistent-zzz'"
      entered in
  handle p = Some core_AB
  ∧ @do_install gset_order libalpm_consts [] [] ∅ p = (Ret EmptyList, entered)
  ∧ ["nonexistent-zzz"] ≠ @nil string
  ∧ resolve_targets core_AB (repos_of core_AB) []  []
      (@list_set gset_order ["nonexistent-zzz"]) entered
    = (Ret [], diagnosed)
  ∧ @do_install gset_order libalpm_consts ["nonexistent-zzz"] [] ∅ p
    = (Ret (Bool false), logging ERROR "No targets found" diagnosed).
Proof.
  intros p entered diagnosed.
  assert (Hh : handle p = Some core_AB) by reflexivity.
  assert (Hne : ["nonexistent-zzz"] ≠ @nil string) by discriminate.
  assert (Hresolve :
    resolve_targets core_AB (repos_of core_AB) [] []
      (@list_set gset_order ["nonexistent-zzz"]) entered
    = (Ret [], diagnosed)) by (vm_compute; reflexivity).
  pose proof (@do_install_empty_cases gset_order libalpm_consts p core_AB []
                ∅ Hh) as [[Hnone _] Hsome].
  split; [exact Hh|]. split; [exact Hnone|]. split; [exact Hne|].
  split; [exact Hresolve|].
  exact (proj1 (Hsome ["nonexistent-zzz"] [] diagnosed Hne Hresolve eq_refl)).
Defined.

(** * Further properties of the module *)

(** ** The emitter on ordinary events *)

Section Events.

Implicit Types (p : Pac) (func : CodeInfo) (event_type : string)
  (event_text : EvVal) (q : Queue).

Lemma queue_event_frame func event_type event_text p :
  same_but_events p (queue_event func event_type event_text p).2.
Proof.
  destruct (decide (last_event p !! event_type = Some event_text)) as [Hs|Hf].
  - rewrite queue_event_same by done. by repeat split.
  - rewrite queue_event_fresh by done. cbn.
    destruct (callback_queue p) as [q|]; cbn; [|by repeat split].
    destruct (put_nowait q _); by repeat split.
Qed.

Lemma queue_event_returns func event_type event_text p :
  event_type ≠ "error" →
  (queue_event func event_type event_text p).1 = Ret tt.
Proof.
  intros Hkind.
  destruct (decide (last_event p !! event_type = Some event_text)) as [Hs|Hf].
  - by rewrite queue_event_same.
  - rewrite queue_event_fresh by done. cbn.
    rewrite !bool_decide_eq_false_2 by done. by destruct (callback_queue p).
Qed.

(** X1. An event of a kind other than ['error'] never ends or blocks
    the caller: [queue_event] returns. It puts at most that one event
    at the end of the queue, leaves the items already queued and the
    pending count alone, and never grows a bounded queue past its
    size. Without a queue there is still none afterwards. *)
Theorem queue_event_ordinary_event func event_type event_text p :
  event_type ≠ "error" →
  let r := queue_event func event_type event_text p in
  r.1 = Ret tt
  ∧ (callback_queue p = None → callback_queue r.2 = None)
  ∧ (∀ q, callback_queue p = Some q →
       ∃ q', callback_queue r.2 = Some q'
         ∧ q_pending q' = q_pending q
         ∧ q_maxsize q' = q_maxsize q
         ∧ (q_items q' = q_items q
            ∨ q_items q' = q_items q ++ [(event_type, event_text)])
         ∧ (0 < q_maxsize q →
            Z.of_nat (length (q_items q)) <= q_maxsize q →
            Z.of_nat (length (q_items q')) <= q_maxsize q)).
Proof.
  intros Hkind r. subst r.
  split; [by apply queue_event_returns|].
  destruct (decide (last_event p !! event_type = Some event_text)) as [Hs|Hf].
  - rewrite queue_event_same by done. cbn. split; [done|].
    intros q Hq. exists q. repeat split; [done|by left|done].
  - rewrite queue_event_fresh by done. cbn.
    rewrite !bool_decide_eq_false_2 by done. split.
    + intros Hq. by rewrite Hq.
    + intros q Hq. rewrite Hq. cbn. unfold put_nowait.
      destruct (queue_full q) eqn:Hfull; cbn.
      * exists q. repeat split; [done|by left|done].
      * eexists. split; [reflexivity|]. cbn. repeat split; [by right|].
        intros Hbounded _. unfold queue_full in Hfull.
        rewrite length_app. cbn.
        apply andb_false_iff in Hfull as [Hfull|Hfull].
        -- apply Z.ltb_ge in Hfull. lia.
        -- apply Z.leb_gt in Hfull. lia.
Qed.

Lemma queue_event_ordinary_event_witness :
  let p := new_Pac (Some (mkQueue [("info", EvStr "a")] 0 1)) (quiet_handle []) in
  let r := queue_event cb_dl_code "percent" (EvNum 0%R) p in
  "percent" ≠ "error"
  ∧ r.1 = Ret tt
  ∧ ∃ q', callback_queue r.2 = Some q'
      ∧ Z.of_nat (length (q_items q')) <= 1.
Proof.
  intros p r.
  assert (Hkind : "percent" ≠ "error") by discriminate.
  split; [exact Hkind|].
  destruct (queue_event_ordinary_event cb_dl_code "percent" (EvNum 0%R) p Hkind)
    as (Hret & _ & Hqueue).
  split; [exact Hret|].
  destruct (Hqueue _ eq_refl) as (q' & Hq' & _ & _ & _ & Hbound).
  exists q'. split; [exact Hq'|]. apply Hbound; cbn; lia.
Defined.

(** X2. An event dropped because the queue was full is lost for good:
    the cache has recorded its text, so the same event sent again is
    suppressed even after the consumer has emptied the queue. *)
Theorem queue_event_dropped_event_is_lost func func' event_type event_text p q :
  callback_queue p = Some q →
  queue_full q = true →
  event_type ≠ "error" →
  last_event p !! event_type ≠ Some event_text →
  let p1 := (queue_event func event_type event_text p).2 in
  let p2 := set_callback_queue (Some (drained q)) p1 in
  callback_queue p1 = Some q
  ∧ queue_event func' event_type event_text p2 = (Ret tt, p2)
  ∧ callback_queue p2 = Some (drained q).
Proof.
  intros Hq Hfull Hkind Hfresh p1 p2.
  assert (Hp1 : p1 = remember event_type event_text p).
  { subst p1. rewrite queue_event_fresh by done. cbn. rewrite Hq. cbn.
    unfold put_nowait. by rewrite Hfull. }
  split; [by rewrite Hp1|]. split; [|done].
  apply queue_event_same. subst p2. rewrite Hp1. cbn.
  apply lookup_insert_eq.
Qed.

Lemma queue_event_dropped_event_is_lost_witness :
  let q := mkQueue [("info", EvStr "Downloading linux...")] 0 1 in
  let p := new_Pac (Some q) (quiet_handle []) in
  let p1 := (queue_event cb_dl_code "percent" (EvNum 0%R) p).2 in
  let p2 := set_callback_queue (Some (drained q)) p1 in
  callback_queue p = Some q
  ∧ queue_full q = true
  ∧ "percent" ≠ "error"
  ∧ last_event p !! "percent" ≠ Some (EvNum 0%R)
  ∧ queue_event cb_dl_code "percent" (EvNum 0%R) p2 = (Ret tt, p2)
  ∧ callback_queue p2 = Some (mkQueue [] 0 1).
Proof.
  intros q p p1 p2.
  assert (Hq : callback_queue p = Some q) by reflexivity.
  assert (Hfull : queue_full q = true) by reflexivity.
  assert (Hkind : "percent" ≠ "error") by discriminate.
  assert (Hfresh : last_event p !! "percent" ≠ Some (EvNum 0%R)) by done.
  split; [exact Hq|]. split; [exact Hfull|]. split; [exact Hkind|].
  split; [exact Hfresh|].
  exact (proj2 (queue_event_dropped_event_is_lost cb_dl_code cb_dl_code
                  "percent" (EvNum 0%R) p q Hq Hfull Hkind Hfresh)).
Defined.

End Events.

(** ** The download hook across calls *)

Section Downloads.

Local Open Scope R_scope.

Implicit Types (p : Pac) (filename base : string) (tx total : Z)
  (txs : list Z).

Lemma substring_all (s : string) : String.substring 0 (String.length s) s = s.
Proof. induction s as [|c s IH]; simpl; congruence. Qed.

Lemma length_append (s1 s2 : string) :
  String.length (s1 +:+ s2) = (String.length s1 + String.length s2)%nat.
Proof.
  induction s1 as [|c s1 IH]; [reflexivity|].
  change (String c s1 +:+ s2) with (String c (s1 +:+ s2)). simpl. congruence.
Qed.

Lemma substring_suffix (s1 s2 : string) :
  String.substring (String.length s1) (String.length s2) (s1 +:+ s2) = s2.
Proof.
  induction s1 as [|c s1 IH]; [apply substring_all|].
  change (String c s1 +:+ s2) with (String c (s1 +:+ s2)). simpl. exact IH.
Qed.

Lemma substring_prefix (s1 s2 : string) :
  String.substring 0 (String.length s1) (s1 +:+ s2) = s1.
Proof.
  induction s1 as [|c s1 IH]; [by destruct s2|].
  change (String c s1 +:+ s2) with (String c (s1 +:+ s2)). simpl. congruence.
Qed.

Lemma endswith_append base ext :
  endswith (base +:+ ext) ext = true ∧ strip_suffix (base +:+ ext) ext = base.
Proof.
  unfold endswith, strip_suffix. rewrite length_append.
  replace (String.length base + String.length ext - String.length ext)%nat
    with (String.length base) by lia.
  rewrite substring_suffix, substring_prefix, String.eqb_refl.
  split; [|done]. apply andb_true_iff. split; [|done].
  apply Nat.leb_le. lia.
Qed.

Lemma cb_dl_new_file filename tx total p :
  ¬ same_file filename total p →
  cb_dl filename tx total p =
    let p0 := set_last_dl_progress 0
                (set_last_dl_total_size total
                   (set_last_dl_filename (Some filename) p)) in
    if (total_download_size p =? 0)%Z then
      (queue_event cb_dl_code "info"
         (EvStr (py_format "Updating %s database"
                   [if endswith filename ".db"
                    then strip_suffix filename ".db" else filename])) ;;
       queue_event cb_dl_code "percent" (EvNum 0)) p0
    else
      (queue_event cb_dl_code "info"
         (EvStr (py_format "Downloading %s..."
                   [if endswith filename ".pkg.tar.xz"
                    then strip_suffix filename ".pkg.tar.xz" else filename])) ;;
       queue_event cb_dl_code "percent" (EvNum 0))
        (set_downloaded_packages (downloaded_packages p + 1) p0).
Proof.
  intros Hnew. unfold cb_dl.
  assert (bool_decide (Some filename ≠ last_dl_filename p)
          || bool_decide (last_dl_total_size p ≠ total) = true) as ->.
  { apply orb_true_iff.
    destruct (decide (Some filename = last_dl_filename p)) as [Heq|Hne].
    - right. apply bool_decide_eq_true_2. intros Ht. by apply Hnew.
    - left. by apply bool_decide_eq_true_2. }
  cbn. by destruct (total_download_size p =? 0)%Z.
Qed.

Lemma two_events_frame func1 func2 kind1 kind2 text1 text2 p :
  kind1 ≠ "error" →
  kind2 ≠ "error" →
  let r := (queue_event func1 kind1 text1 ;; queue_event func2 kind2 text2) p in
  r.1 = Ret tt ∧ same_but_events p r.2
  ∧ last_event r.2 !! kind2 = Some text2.
Proof.
  intros Hk1 Hk2 r.
  assert (Hrun : r = queue_event func2 kind2 text2
                       (queue_event func1 kind1 text1 p).2).
  { subst r. unfold mbind, M_bind.
    pose proof (queue_event_returns func1 kind1 text1 p Hk1) as Hret.
    destruct (queue_event func1 kind1 text1 p) as [r1 p1]. cbn in *.
    by subst r1. }
  rewrite Hrun. clear Hrun r.
  pose proof (queue_event_frame func1 kind1 text1 p) as Hframe.
  pose proof (queue_event_frame func2 kind2 text2
                (queue_event func1 kind1 text1 p).2) as Hframe2.
  split; [by apply queue_event_returns|]. split.
  - unfold same_but_events in *.
    destruct Hframe as (?&?&?&?&?&?&?&?&?), Hframe2 as (?&?&?&?&?&?&?&?&?).
    repeat split; etrans; eassumption.
  - apply queue_event_last_event.
Qed.

(** X3. After every call of [cb_dl], the recorded name and total are
    those of the call, so an identical call that follows is a
    continuation of the same file. A call with another name or another
    total starts over: it returns, the stored fraction is reset to [0],
    and the last ['percent'] remembered by the emitter is [0]. *)
Theorem cb_dl_records_the_file filename tx total p :
  same_file filename total (cb_dl filename tx total p).2
  ∧ (¬ same_file filename total p →
     (cb_dl filename tx total p).1 = Ret tt
     ∧ last_dl_progress (cb_dl filename tx total p).2 = 0
     ∧ last_event (cb_dl filename tx total p).2 !! "percent" = Some (EvNum 0)).
Proof.
  destruct (decide (same_file filename total p)) as [Hsame|Hnew].
  - split; [|done].
    destruct (dl_progress total tx) as [progress|e] eqn:Hprogress.
    + rewrite (cb_dl_same_file _ _ _ _ _ Hsame Hprogress).
      destruct (Rgt_dec _ _); [|done].
      destruct (queue_event_frame cb_dl_code "percent" (EvNum progress)
                  (set_last_dl_progress progress p)) as (_&Hf&_&Ht&_).
      destruct Hsame as [Hname Htotal].
      split; [by rewrite Hf | by rewrite Ht].
    + unfold cb_dl. destruct Hsame as [Hname Htotal].
      rewrite Hname, Htotal, Hprogress.
      rewrite !bool_decide_eq_false_2 by (intros H; by apply H). done.
  - assert (Hresult :
      (cb_dl filename tx total p).1 = Ret tt
      ∧ last_dl_filename (cb_dl filename tx total p).2 = Some filename
      ∧ last_dl_total_size (cb_dl filename tx total p).2 = total
      ∧ last_dl_progress (cb_dl filename tx total p).2 = 0
      ∧ last_event (cb_dl filename tx total p).2 !! "percent" = Some (EvNum 0)).
    { rewrite (cb_dl_new_file _ _ _ _ Hnew). cbv zeta.
      destruct (total_download_size p =? 0)%Z;
        match goal with
        | |- context [(queue_event ?f1 ?k1 ?t1 ;; queue_event ?f2 ?k2 ?t2) ?p0] =>
            destruct (two_events_frame f1 f2 k1 k2 t1 t2 p0)
              as (Hret & (_&Hf&Hp&Ht&_) & Hlast); [done|done|]
        end; rewrite Hret, Hf, Hp, Ht, Hlast; done. }
    destruct Hresult as (Hret & Hf & Ht & Hp & Hl). by repeat split.
Qed.

End Downloads.

Section DownloadRuns.

Local Open Scope R_scope.

Implicit Types (p : Pac) (filename base : string) (tx total : Z)
  (txs : list Z).

(** One continuation call: the file stays the same, the count of
    downloaded packages too, and the stored fraction does not go down;
    it is the computed one or the old one. *)
Lemma cb_dl_continuation filename tx total p :
  same_file filename total p →
  let p' := (cb_dl filename tx total p).2 in
  same_file filename total p'
  ∧ downloaded_packages p' = downloaded_packages p
  ∧ last_dl_progress p <= last_dl_progress p'
  ∧ (last_dl_progress p' = last_dl_progress p
     ∨ dl_progress total tx = Ok (last_dl_progress p')).
Proof.
  intros Hsame p'. subst p'.
  destruct (dl_progress total tx) as [progress|e] eqn:Hprogress.
  - rewrite (cb_dl_same_file _ _ _ _ _ Hsame Hprogress).
    destruct (Rgt_dec _ _) as [Hgt|Hle].
    + destruct (queue_event_frame cb_dl_code "percent" (EvNum progress)
                  (set_last_dl_progress progress p))
        as (_&Hf&Hp&Ht&_&Hd&_).
      destruct Hsame as [Hname Htotal]. cbn in *.
      rewrite Hp. split; [split; congruence|]. split; [done|].
      split; [lra|by right].
    + cbn. split; [done|]. split; [done|]. split; [lra|by left].
  - unfold cb_dl. destruct Hsame as [Hname Htotal].
    rewrite Hname, Htotal, Hprogress.
    rewrite !bool_decide_eq_false_2 by (intros H; by apply H). cbn.
    split; [done|]. split; [done|]. split; [lra|by left].
Qed.

Lemma cb_dl_calls_step filename total tx txs p :
  (cb_dl_calls filename total (tx :: txs) p).2
  = (cb_dl_calls filename total txs (cb_dl filename tx total p).2).2
  ∨ (cb_dl_calls filename total (tx :: txs) p).2 = (cb_dl filename tx total p).2.
Proof.
  cbn [cb_dl_calls]. unfold mbind, M_bind.
  destruct (cb_dl filename tx total p) as [[[]|e|e] p']; cbn; auto.
Qed.

(** X4. Over any run of calls for the same file, whatever the byte
    counts reported and in whatever order, the stored progress never
    goes down, the file record is kept, and the count of downloaded
    packages does not move. *)
Theorem cb_dl_calls_never_regress filename total txs p :
  same_file filename total p →
  let p' := (cb_dl_calls filename total txs p).2 in
  last_dl_progress p <= last_dl_progress p'
  ∧ same_file filename total p'
  ∧ downloaded_packages p' = downloaded_packages p.
Proof.
  revert p. induction txs as [|tx txs IH]; intros p Hsame p'; subst p'.
  - cbn. split; [lra|done].
  - destruct (cb_dl_continuation filename tx total p Hsame)
      as (Hsame' & Hcount & Hle & _).
    destruct (cb_dl_calls_step filename total tx txs p) as [-> | ->].
    + destruct (IH _ Hsame') as (Hle' & Hsame'' & Hcount').
      split; [lra|]. split; [done|congruence].
    + done.
Qed.

Lemma cb_dl_calls_never_regress_witness :
  let p1 := (cb_dl_calls "core.db" 100 [50; 40; 70]%Z announced).2 in
  same_file "core.db" 100 announced
  ∧ last_dl_progress announced <= last_dl_progress p1
  ∧ same_file "core.db" 100 p1.
Proof.
  intros p1.
  assert (Hsame : same_file "core.db" 100 announced)
    by (split; vm_compute; reflexivity).
  split; [exact Hsame|].
  destruct (cb_dl_calls_never_regress "core.db" 100 [50; 40; 70]%Z announced
              Hsame) as (Hle & Hsame' & _).
  split; [exact Hle | exact Hsame'].
Defined.

Lemma dl_progress_in_unit total tx :
  (0 < total)%Z → (0 <= tx <= total)%Z →
  ∃ progress, dl_progress total tx = Ok progress ∧ 0 <= progress <= 1.
Proof.
  intros Htotal [Hlo Hhi]. exists (IZR tx / IZR total).
  split; [by apply dl_progress_known_total|].
  apply IZR_lt in Htotal. apply IZR_le in Hlo, Hhi.
  assert (Hinv : 0 < / IZR total) by (apply Rinv_0_lt_compat; lra).
  assert (Hone : IZR total * / IZR total = 1) by (field; lra).
  unfold Rdiv. split; nra.
Qed.

(** X5. While the size of the file is known and every reported byte
    count lies between [0] and that size, a run of calls for the file
    never raises and keeps the stored progress between [0] and [1]. *)
Theorem cb_dl_calls_known_total filename total txs p :
  same_file filename total p →
  (0 < total)%Z →
  Forall (λ tx, (0 <= tx <= total)%Z) txs →
  0 <= last_dl_progress p <= 1 →
  let r := cb_dl_calls filename total txs p in
  r.1 = Ret tt ∧ 0 <= last_dl_progress r.2 <= 1.
Proof.
  intros Hsame Htotal Htxs. revert p Hsame.
  induction Htxs as [|tx txs Htx _ IH]; intros p Hsame Hunit r; subst r.
  - done.
  - destruct (dl_progress_in_unit total tx Htotal Htx)
      as (progress & Hprogress & Hp).
    destruct (cb_dl_continuation filename tx total p Hsame)
      as (Hsame' & _ & _ & Hlast).
    assert (Hret : (cb_dl filename tx total p).1 = Ret tt).
    { rewrite (cb_dl_same_file _ _ _ _ _ Hsame Hprogress).
      destruct (Rgt_dec _ _); [|done]. by apply queue_event_returns. }
    assert (Hunit' : 0 <= last_dl_progress (cb_dl filename tx total p).2 <= 1).
    { destruct Hlast as [-> | Hnew]; [done|].
      rewrite Hprogress in Hnew. injection Hnew as <-. done. }
    cbn [cb_dl_calls]. unfold mbind, M_bind.
    destruct (cb_dl filename tx total p) as [r1 p1]. cbn in *. subst r1.
    by apply IH.
Qed.

Lemma cb_dl_calls_known_total_witness :
  let r := cb_dl_calls "core.db" 100 [50; 40; 100]%Z announced in
  same_file "core.db" 100 announced
  ∧ (0 < 100)%Z
  ∧ Forall (λ tx, (0 <= tx <= 100)%Z) [50; 40; 100]%Z
  ∧ 0 <= last_dl_progress announced <= 1
  ∧ r.1 = Ret tt
  ∧ 0 <= last_dl_progress r.2 <= 1.
Proof.
  intros r.
  assert (Hsame : same_file "core.db" 100 announced)
    by (split; vm_compute; reflexivity).
  assert (Htotal : (0 < 100)%Z) by lia.
  assert (Htxs : Forall (λ tx, (0 <= tx <= 100)%Z) [50; 40; 100]%Z)
    by (repeat constructor; lia).
  assert (Hunit : 0 <= last_dl_progress announced <= 1).
  { assert (last_dl_progress announced = 0) as -> by (vm_compute; reflexivity).
    lra. }
  split; [exact Hsame|]. split; [exact Htotal|]. split; [exact Htxs|].
  split; [exact Hunit|].
  exact (cb_dl_calls_known_total "core.db" 100 [50; 40; 100]%Z announced
           Hsame Htotal Htxs Hunit).
Defined.

Lemma queue_event_other_kinds func event_type event_text p kind :
  kind ≠ event_type →
  last_event (queue_event func event_type event_text p).2 !! kind
  = last_event p !! kind.
Proof.
  intros Hkind.
  destruct (decide (last_event p !! event_type = Some event_text)) as [Hs|Hf].
  - by rewrite queue_event_same.
  - rewrite queue_event_fresh by done. cbn.
    destruct (callback_queue p) as [q|]; cbn.
    + destruct (put_nowait q _); cbn; by apply lookup_insert_ne.
    + by apply lookup_insert_ne.
Qed.

Lemma announcement_remembered text p :
  let r := (queue_event cb_dl_code "info" (EvStr text) ;;
            queue_event cb_dl_code "percent" (EvNum 0)) p in
  last_event r.2 !! "info" = Some (EvStr text)
  ∧ downloaded_packages r.2 = downloaded_packages p.
Proof.
  intros r.
  destruct (two_events_frame cb_dl_code cb_dl_code "info" "percent"
              (EvStr text) (EvNum 0) p) as (_ & (_&_&_&_&_&Hd&_) & _);
    [done|done|].
  split; [|exact Hd]. subst r. unfold mbind, M_bind.
  pose proof (queue_event_last_event cb_dl_code "info" (EvStr text) p) as Hl.
  pose proof (queue_event_returns cb_dl_code "info" (EvStr text) p) as Hret.
  destruct (queue_event cb_dl_code "info" (EvStr text) p) as [r1 p1].
  cbn in *. rewrite Hret by done.
  by rewrite queue_event_other_kinds.
Qed.

(** X6. A new file is announced under its name without the known
    extension. While [total_download_size] is zero the file is a
    database: [base.db] is announced as [Updating base database] and the
    count of downloaded packages does not move. Otherwise it is a
    package: [base.pkg.tar.xz] is announced as [Downloading base...] and
    the count goes up by one. *)
Theorem cb_dl_announces_base_name base tx total p :
  (¬ same_file (base +:+ ".db") total p →
   total_download_size p = 0%Z →
   let r := cb_dl (base +:+ ".db") tx total p in
   last_event r.2 !! "info"
   = Some (EvStr (py_format "Updating %s database" [base]))
   ∧ downloaded_packages r.2 = downloaded_packages p)
  ∧ (¬ same_file (base +:+ ".pkg.tar.xz") total p →
     total_download_size p ≠ 0%Z →
     let r := cb_dl (base +:+ ".pkg.tar.xz") tx total p in
     last_event r.2 !! "info"
     = Some (EvStr (py_format "Downloading %s..." [base]))
     ∧ downloaded_packages r.2 = (downloaded_packages p + 1)%Z).
Proof.
  split.
  - intros Hnew Hzero r. subst r. rewrite (cb_dl_new_file _ _ _ _ Hnew).
    cbv zeta. rewrite Hzero. cbn [Z.eqb].
    destruct (endswith_append base ".db") as [-> ->].
    destruct (announcement_remembered (py_format "Updating %s database" [base])
                (set_last_dl_progress 0
                   (set_last_dl_total_size total
                      (set_last_dl_filename (Some (base +:+ ".db")) p))))
      as [Hl Hd].
    split; [exact Hl | by rewrite Hd].
  - intros Hnew Hnonzero r. subst r. rewrite (cb_dl_new_file _ _ _ _ Hnew).
    cbv zeta. apply Z.eqb_neq in Hnonzero. rewrite Hnonzero.
    destruct (endswith_append base ".pkg.tar.xz") as [-> ->].
    destruct (announcement_remembered (py_format "Downloading %s..." [base])
                (set_downloaded_packages (downloaded_packages p + 1)
                   (set_last_dl_progress 0
                      (set_last_dl_total_size total
                         (set_last_dl_filename
                            (Some (base +:+ ".pkg.tar.xz")) p)))))
      as [Hl Hd].
    split; [exact Hl | by rewrite Hd].
Qed.

End DownloadRuns.

(** ** The hooks *)

Section Hooks.

Local Open Scope R_scope.

Implicit Types (p : Pac) (ID : Z) (target : option string).

Lemma two_events_remembered func1 func2 kind1 kind2 text1 text2 p :
  kind1 ≠ "error" → kind2 ≠ "error" → kind1 ≠ kind2 →
  last_event
    ((queue_event func1 kind1 text1 ;; queue_event func2 kind2 text2) p).2
  !! kind1 = Some text1.
Proof.
  intros Hk1 Hk2 Hne. unfold mbind, M_bind.
  pose proof (queue_event_last_event func1 kind1 text1 p) as Hl.
  pose proof (queue_event_returns func1 kind1 text1 p Hk1) as Hret.
  destruct (queue_event func1 kind1 text1 p) as [r1 p1].
  cbn in *. rewrite Hret. by rewrite queue_event_other_kinds.
Qed.

Lemma cb_event_action_known ID :
  (ID ∈ announced_actions → cb_event_action ID ≠ EmptyString)
  ∧ (ID ∉ announced_actions → cb_event_action ID = EmptyString).
Proof.
  unfold announced_actions, cb_event_action. split.
  - intros Hin.
    repeat (apply elem_of_cons in Hin as [->|Hin]; [done|]).
    by apply elem_of_nil in Hin.
  - intros Hnot.
    repeat match goal with
           | |- context [Z.eqb ID ?k] =>
               destruct (Z.eqb_spec ID k) as [->|_];
               [first [reflexivity | exfalso; apply Hnot; repeat constructor]|]
           end.
    reflexivity.
Qed.

(** X7. [cb_event] always returns. An action ID outside
    [1, 3, 5, 7, 11, 13, 15, 17, 26, 27] (this includes [9], whose text
    is commented out) changes nothing at all; an ID of the list hands
    its text to the emitter as an ['info'] event. The same ID reported
    twice in a row has the effect of reporting it once. *)
Theorem cb_event_announces_known_actions ID p :
  (cb_event ID p).1 = Ret tt
  ∧ (ID ∉ announced_actions → cb_event ID p = (Ret tt, p))
  ∧ (ID ∈ announced_actions →
     cb_event_action ID ≠ EmptyString
     ∧ last_event (cb_event ID p).2 !! "info" = Some (EvStr (cb_event_action ID)))
  ∧ (cb_event ID ;; cb_event ID) p = cb_event ID p.
Proof.
  destruct (cb_event_action_known ID) as [Hknown Hunknown].
  unfold cb_event.
  destruct (cb_event_action ID) as [|c action] eqn:Haction; cbn [String.length Nat.ltb Nat.leb].
  - split; [done|]. split; [done|]. split; [|done].
    intros Hin. by destruct (Hknown Hin).
  - split; [by apply queue_event_returns|]. split.
    { intros Hnot. by specialize (Hunknown Hnot). }
    split.
    { intros _. split; [done|apply queue_event_last_event]. }
    unfold mbind, M_bind.
    pose proof (queue_event_last_event cb_event_code "info"
                  (EvStr (String c action)) p) as Hl.
    pose proof (queue_event_returns cb_event_code "info"
                  (EvStr (String c action)) p) as Hret.
    destruct (queue_event cb_event_code "info" (EvStr (String c action)) p)
      as [r1 p1]. cbn in *. rewrite Hret by done.
    by apply queue_event_same.
Qed.

(** X8. [cb_progress] with a target and a total count of zero raises
    [ZeroDivisionError] before anything is emitted: the state is
    untouched. With a target and a count other than zero it returns,
    having handed the emitter the message and the fraction [i / n],
    which lies between [0] and [1] when [0 <= i <= n]. Without a target
    (none, or an empty name) it never fails and the fraction is
    [percent / 100]. *)
Theorem cb_progress_fraction target percent n i p :
  let r := cb_progress target percent n i p in
  (∀ name, truthy target = Some name → n = 0%Z →
     r = (Raise (BuiltinExc "ZeroDivisionError"), p))
  ∧ (∀ name, truthy target = Some name → n ≠ 0%Z →
       r.1 = Ret tt
       ∧ last_event r.2 !! "info"
         = Some (EvStr (py_format_d "Installing %s (%d/%d)"
                          [name; pretty i; pretty n]))
       ∧ last_event r.2 !! "percent" = Some (EvNum (IZR i / IZR n))
       ∧ ((0 <= i <= n)%Z → 0 <= IZR i / IZR n <= 1))
  ∧ (truthy target = None →
       r.1 = Ret tt
       ∧ last_event r.2 !! "info"
         = Some (EvStr (py_format_d
                          "Checking and loading packages... (%d targets)"
                          [pretty n]))
       ∧ last_event r.2 !! "percent" = Some (EvNum (IZR percent / 100))).
Proof.
  intros r. subst r. unfold cb_progress, progress_report.
  split; [|split].
  - intros name -> ->. done.
  - intros name -> Hn. apply Z.eqb_neq in Hn. rewrite Hn.
    destruct (two_events_frame cb_progress_code cb_progress_code "info"
                "percent"
                (EvStr (py_format_d (gettext "Installing %s (%d/%d)")
                          [name; pretty i; pretty n]))
                (EvNum (IZR i / IZR n)) p) as (Hret & _ & Hpercent);
      [done|done|].
    split; [exact Hret|]. split; [by apply two_events_remembered|].
    split; [exact Hpercent|].
    intros [Hlo Hhi]. apply Z.eqb_neq in Hn.
    assert (0 < n)%Z as Hpos by lia.
    apply IZR_lt in Hpos. apply IZR_le in Hlo, Hhi.
    assert (Hinv : 0 < / IZR n) by (apply Rinv_0_lt_compat; lra).
    assert (Hone : IZR n * / IZR n = 1) by (field; lra).
    unfold Rdiv. split; nra.
  - intros ->.
    destruct (two_events_frame cb_progress_code cb_progress_code "info"
                "percent"
                (EvStr (py_format_d
                          (gettext "Checking and loading packages... (%d targets)")
                          [pretty n]))
                (EvNum (IZR percent / 100)) p) as (Hret & _ & Hpercent);
      [done|done|].
    split; [exact Hret|]. split; [by apply two_events_remembered|done].
Qed.

Lemma cb_event_frame ID p :
  (cb_event ID p).1 = Ret tt
  ∧ handle (cb_event ID p).2 = handle p
  ∧ engine_calls (cb_event ID p).2 = engine_calls p.
Proof.
  unfold cb_event. destruct (0 <? String.length (cb_event_action ID))%nat.
  - destruct (queue_event_frame cb_event_code "info"
                (EvStr (cb_event_action ID)) p) as (Hh&_&_&_&_&_&_&_&He).
    split; [by apply queue_event_returns|]. by rewrite Hh, He.
  - done.
Qed.

Context `{PyalpmLog}.

(** What a hook leaves alone: the handle and the record of engine
    calls. *)
Lemma cb_dl_frame filename tx total p :
  let r := cb_dl filename tx total p in
  (r.1 = Ret tt
   ∨ (r = (Raise (BuiltinExc "ValueError"), p)
      ∧ (last_dl_total_size p <= 0)%Z ∧ (tx <= -1024)%Z))
  ∧ handle r.2 = handle p ∧ engine_calls r.2 = engine_calls p.
Proof.
  intros r. subst r.
  destruct (decide (same_file filename total p)) as [Hsame|Hnew].
  - destruct (dl_progress total tx) as [progress|e] eqn:Hprogress.
    + rewrite (cb_dl_same_file _ _ _ _ _ Hsame Hprogress).
      destruct (Rgt_dec _ _); [|by split; [left|]].
      destruct (queue_event_frame cb_dl_code "percent" (EvNum progress)
                  (set_last_dl_progress progress p)) as (Hh&_&_&_&_&_&_&_&He).
      split; [left; by apply queue_event_returns|]. by rewrite Hh, He.
    + assert (e = BuiltinExc "ValueError"
              ∧ (total <= 0)%Z ∧ (tx <= -1024)%Z) as (-> & Htotal' & Htx).
      { unfold dl_progress, math_log in Hprogress.
        destruct (Z.ltb_spec 0 total) as [|Hle]; [done|].
        destruct (Rlt_dec _ _) as [|Hlog]; [done|].
        injection Hprogress as <-. split; [done|]. split; [done|].
        apply le_IZR. lra. }
      unfold cb_dl. destruct Hsame as [Hname Htotal].
      rewrite Hname, Htotal, Hprogress.
      rewrite !bool_decide_eq_false_2 by (intros Hx; by apply Hx).
      by split; [right|].
  - rewrite (cb_dl_new_file _ _ _ _ Hnew). cbv zeta.
    destruct (total_download_size p =? 0)%Z;
      match goal with
      | |- context [(queue_event ?f1 ?k1 ?t1 ;; queue_event ?f2 ?k2 ?t2) ?p0] =>
          destruct (two_events_frame f1 f2 k1 k2 t1 t2 p0)
            as (Hret & (Hh&_&_&_&_&_&_&_&He) & _); [done|done|]
      end; (split; [by left|]); by rewrite Hh, He.
Qed.

(** X9. No hook ever calls into the engine, drops the handle, waits on
    the queue or ends the process. A hook returns, with two exceptions
    that leave the object as it was: [cb_dl] raises [ValueError] (from
    [math.log], when the size is unknown and the byte count is [-1024]
    or less) and [cb_progress] raises [ZeroDivisionError] (a target
    with a total count of zero). *)
Theorem run_hook_stays_inside hook p :
  let r := run_hook hook p in
  (r.1 = Ret tt
   ∨ (r = (Raise (BuiltinExc "ValueError"), p)
      ∧ ∃ filename tx total, hook = HookDl filename tx total
          ∧ (last_dl_total_size p <= 0)%Z ∧ (tx <= -1024)%Z)
   ∨ (r = (Raise (BuiltinExc "ZeroDivisionError"), p)
      ∧ ∃ target percent i, hook = HookProgress target percent 0 i))
  ∧ handle r.2 = handle p
  ∧ engine_calls r.2 = engine_calls p.
Proof.
  intros r. subst r. destruct hook as [level line|filename tx total|total_size
                                      |ID| |target percent n i]; cbn [run_hook].
  - unfold cb_log.
    destruct (negb _); [by split; [left|]|].
    destruct (negb _); by split; [left|].
  - destruct (cb_dl_frame filename tx total p)
      as ([Hret|(Hraise & Htotal & Htx)] & Hh & He).
    + by split; [left|].
    + split; [|done]. right. left. split; [done|].
      by exists filename, tx, total.
  - by split; [left|].
  - destruct (cb_event_frame ID p) as (Hret & Hh & He).
    by split; [left|].
  - by split; [left|].
  - unfold cb_progress, progress_report.
    destruct (truthy target) as [name|].
    + destruct (Z.eqb_spec n 0) as [->|Hn].
      * split; [|done]. right. right. split; [done|]. by eexists _, _, _.
      * match goal with
        | |- context [(queue_event ?f1 ?k1 ?t1 ;; queue_event ?f2 ?k2 ?t2) ?p0] =>
            destruct (two_events_frame f1 f2 k1 k2 t1 t2 p0)
              as (Hret & (Hh&_&_&_&_&_&_&_&He) & _); [done|done|]
        end. by split; [left|].
    + match goal with
      | |- context [(queue_event ?f1 ?k1 ?t1 ;; queue_event ?f2 ?k2 ?t2) ?p0] =>
          destruct (two_events_frame f1 f2 k1 k2 t1 t2 p0)
            as (Hret & (Hh&_&_&_&_&_&_&_&He) & _); [done|done|]
      end. by split; [left|].
Qed.

End Hooks.

(** ** Looking packages and groups up *)

Section Lookups.

Implicit Types (h : Handle) (db : DB) (dbs : list DB) (name group : string)
  (pkg : Pkg) (repos : list (string * DB)).

Lemma first_pkg_found name dbs pkg :
  first_pkg name dbs = Some pkg
  ↔ ∃ before db after,
      dbs = before ++ db :: after
      ∧ Forall (λ d, get_pkg d name = None) before
      ∧ get_pkg db name = Some pkg.
Proof.
  induction dbs as [|db dbs IH]; cbn.
  - split; [done|]. intros (before & db & after & Hdbs & _).
    by destruct before.
  - destruct (get_pkg db name) as [pkg'|] eqn:Hget.
    + split.
      * intros [= ->]. by exists [], db, dbs.
      * intros ([|d before] & db' & after & Hdbs & Hbefore & Hfound).
        -- injection Hdbs as <- _. congruence.
        -- injection Hdbs as <- _. apply Forall_cons in Hbefore as [Hd _].
           congruence.
    + rewrite IH. split.
      * intros (before & db' & after & -> & Hbefore & Hfound).
        exists (db :: before), db', after. split; [done|].
        split; [by constructor|done].
      * intros ([|d before] & db' & after & Hdbs & Hbefore & Hfound).
        -- injection Hdbs as <- _. congruence.
        -- injection Hdbs as <- ->. apply Forall_cons in Hbefore as [_ Hbefore].
           by exists before, db', after.
Qed.

Lemma first_pkg_missing name dbs :
  first_pkg name dbs = None ↔ Forall (λ d, get_pkg d name = None) dbs.
Proof.
  induction dbs as [|db dbs IH]; cbn; [done|].
  destruct (get_pkg db name) as [pkg'|] eqn:Hget.
  - split; [done|]. intros [Hd _]%Forall_cons. congruence.
  - rewrite IH. split; [by constructor|]. by intros [_ ?]%Forall_cons.
Qed.

(** X10. [find_sync_package] answers with the package of the first
    repository, in the order of the [dict], that holds the name: that
    package is found exactly when every repository before it lacks the
    name, and the lookup fails exactly when every repository lacks it.
    The failure carries the message naming the package. *)
Theorem find_sync_package_first_match name repos :
  (∀ pkg, find_sync_package name repos = inl pkg
     ↔ ∃ before db after,
         dict_values repos = before ++ db :: after
         ∧ Forall (λ d, get_pkg d name = None) before
         ∧ get_pkg db name = Some pkg)
  ∧ (find_sync_package name repos
     = inr (py_format "Package '%s' was not found." [name])
     ↔ Forall (λ d, get_pkg d name = None) (dict_values repos))
  ∧ (∀ msg, find_sync_package name repos = inr msg →
       msg = py_format "Package '%s' was not found." [name]).
Proof.
  unfold find_sync_package. split; [|split].
  - intros pkg. rewrite <- first_pkg_found.
    destruct (first_pkg name (dict_values repos)); split; congruence.
  - rewrite <- first_pkg_missing.
    by destruct (first_pkg name (dict_values repos)).
  - intros msg. destruct (first_pkg name (dict_values repos)); congruence.
Qed.

Lemma first_group_found group dbs (pkgs : list Pkg) :
  first_group group dbs = Some pkgs
  ↔ ∃ before repo after gname,
      dbs = before ++ repo :: after
      ∧ Forall (λ d, read_grp d group = None) before
      ∧ read_grp repo group = Some (gname, pkgs).
Proof.
  induction dbs as [|db dbs IH]; cbn.
  - split; [done|]. intros (before & repo & after & gname & Hdbs & _).
    by destruct before.
  - destruct (read_grp db group) as [[gname' pkgs']|] eqn:Hget.
    + split.
      * intros [= ->]. by exists [], db, dbs, gname'.
      * intros ([|d before] & repo & after & gname & Hdbs & Hbefore & Hfound).
        -- injection Hdbs as <- _. congruence.
        -- injection Hdbs as <- _. apply Forall_cons in Hbefore as [Hd _].
           congruence.
    + rewrite IH. split.
      * intros (before & repo & after & gname & -> & Hbefore & Hfound).
        exists (db :: before), repo, after, gname. split; [done|].
        split; [by constructor|done].
      * intros ([|d before] & repo & after & gname & Hdbs & Hbefore & Hfound).
        -- injection Hdbs as <- _. congruence.
        -- injection Hdbs as <- ->. apply Forall_cons in Hbefore as [_ Hbefore].
           by exists before, repo, after, gname.
Qed.

(** X11. [get_group_pkgs] answers with the members the first
    configured repository exposing the group gives it; groups of the
    same name in later repositories are not consulted. It answers
    [None] exactly when no repository has the group. *)
Theorem get_group_pkgs_first_match h group :
  (∀ pkgs, get_group_pkgs h group = Some pkgs
     ↔ ∃ before repo after gname,
         get_syncdbs h = before ++ repo :: after
         ∧ Forall (λ d, read_grp d group = None) before
         ∧ read_grp repo group = Some (gname, pkgs))
  ∧ (get_group_pkgs h group = None
     ↔ Forall (λ d, read_grp d group = None) (get_syncdbs h)).
Proof.
  unfold get_group_pkgs. split; [intros pkgs; apply first_group_found|].
  induction (get_syncdbs h) as [|db dbs IH]; cbn; [done|].
  destruct (read_grp db group) as [[gname pkgs]|] eqn:Hget.
  - split; [done|]. intros [Hd _]%Forall_cons. congruence.
  - rewrite IH. split; [by constructor|]. by intros [_ ?]%Forall_cons.
Qed.

Lemma dict_set_fresh {V} (k : string) (v : V) (d : list (string * V)) :
  k ∉ d.*1 → dict_set k v d = d ++ [(k, v)].
Proof.
  induction d as [|[k' v'] d IH]; cbn; [done|].
  intros Hk. apply not_elem_of_cons in Hk as [Hne Hk].
  rewrite bool_decide_eq_false_2 by done. by rewrite IH.
Qed.

Lemma dict_set_keys {V} (k : string) (v : V) (d : list (string * V)) :
  k ∈ d.*1 → (dict_set k v d).*1 = d.*1.
Proof.
  induction d as [|[k' v'] d IH]; cbn; [by intros ?%elem_of_nil|].
  intros Hk. case_bool_decide as Heq; cbn; [by subst|].
  apply elem_of_cons in Hk as [?|Hk]; [done|]. by rewrite IH.
Qed.

Lemma dict_set_values {V} (k : string) (v : V) (d : list (string * V)) x :
  x ∈ (dict_set k v d).*2 → x = v ∨ x ∈ d.*2.
Proof.
  induction d as [|[k' v'] d IH]; cbn.
  - intros ->%list_elem_of_singleton. by left.
  - case_bool_decide; cbn; intros [->|Hx]%elem_of_cons.
    + by left.
    + right. by right.
    + right. left.
    + destruct (IH Hx) as [->|Hd]; [by left|]. right. by right.
Qed.

Lemma dict_of_pairs_acc {V} (acc kvs : list (string * V)) :
  NoDup acc.*1 →
  let d := foldl (λ d kv, dict_set kv.1 kv.2 d) acc kvs in
  NoDup d.*1
  ∧ (∀ x, x ∈ d.*2 → x ∈ acc.*2 ∨ x ∈ kvs.*2)
  ∧ (NoDup (acc ++ kvs).*1 → d = acc ++ kvs).
Proof.
  revert acc. induction kvs as [|[k v] kvs IH]; intros acc Hacc d; subst d.
  - cbn. split; [done|]. split; [by left|]. intros _. by rewrite app_nil_r.
  - cbn [foldl fst snd].
    assert (Hacc' : NoDup (dict_set k v acc).*1).
    { destruct (decide (k ∈ acc.*1)) as [Hin|Hnot].
      - by rewrite dict_set_keys.
      - rewrite dict_set_fresh, fmap_app by done.
        apply NoDup_app. split; [done|]. split; [|apply NoDup_singleton].
        intros x Hx ->%list_elem_of_singleton. done. }
    destruct (IH _ Hacc') as (Hnodup & Hvalues & Hsame).
    split; [done|]. split.
    + intros x Hx. destruct (Hvalues x Hx) as [Hset|Hrest].
      * apply dict_set_values in Hset as [->|Hold]; [right; left|by left].
      * right. by right.
    + intros Hall. rewrite fmap_app in Hall. cbn in Hall.
      assert (Hk : k ∉ acc.*1).
      { apply NoDup_app in Hall as (_ & Hdisj & _).
        intros Hin. apply (Hdisj k Hin). left. }
      rewrite dict_set_fresh in * by done.
      rewrite Hsame; [by rewrite <- app_assoc|].
      by rewrite <- app_assoc, fmap_app.
Qed.

(** X12. The [dict] of repositories keeps one entry per repository
    name and holds configured repositories only. When the configured
    repositories have distinct names it lists all of them in their
    configured order, so [find_sync_package] searches them in that
    order. *)
Theorem repos_of_configured_order h :
  NoDup (repos_of h).*1
  ∧ (∀ db, db ∈ dict_values (repos_of h) → db ∈ get_syncdbs h)
  ∧ (NoDup (db_name <$> get_syncdbs h) →
     dict_values (repos_of h) = get_syncdbs h
     ∧ ∀ name, find_sync_package name (repos_of h)
         = match first_pkg name (get_syncdbs h) with
           | Some pkg => inl pkg
           | None => inr (py_format "Package '%s' was not found." [name])
           end).
Proof.
  unfold repos_of, dict_of_pairs.
  destruct (dict_of_pairs_acc []
              ((λ db, (db_name db, db)) <$> get_syncdbs h))
    as (Hnodup & Hvalues & Hsame); [constructor|].
  assert (Hkeys : ((λ db, (db_name db, db)) <$> get_syncdbs h).*1
                  = db_name <$> get_syncdbs h).
  { rewrite <- list_fmap_compose. done. }
  assert (Hvals : ((λ db, (db_name db, db)) <$> get_syncdbs h).*2
                  = get_syncdbs h).
  { rewrite <- list_fmap_compose. apply list_fmap_id. }
  split; [done|]. split.
  - intros db Hdb. destruct (Hvalues db Hdb) as [Hnil|Hin].
    + by apply elem_of_nil in Hnil.
    + by rewrite Hvals in Hin.
  - intros Hnames. cbn in Hsame. rewrite Hkeys in Hsame.
    assert (Hvalues' :
      dict_values (foldl (λ d kv, dict_set kv.1 kv.2 d) []
                     ((λ db, (db_name db, db)) <$> get_syncdbs h))
      = get_syncdbs h).
    { unfold dict_values. by rewrite (Hsame Hnames). }
    split; [done|]. intros name. unfold find_sync_package. by rewrite Hvalues'.
Qed.

End Lookups.

Lemma repos_of_configured_order_witness :
  let h := quiet_handle [quiet_db "core" ["A"]; quiet_db "extra" ["B"]] in
  NoDup (db_name <$> get_syncdbs h)
  ∧ dict_values (repos_of h) = get_syncdbs h.
Proof.
  intros h.
  assert (Hnames : NoDup (db_name <$> get_syncdbs h)).
  { cbn. apply NoDup_cons. split; [|apply NoDup_singleton].
    by intros ?%list_elem_of_singleton. }
  split; [exact Hnames|].
  exact (proj1 (proj2 (proj2 (repos_of_configured_order h)) Hnames)).
Defined.

(** ** The transaction manager on its failure paths *)

Section Failures.

Context `{PySet} `{PyalpmConsts}.

Implicit Types (p : Pac) (h : Handle) (options : gmap string PyVal)
  (pkgs conflicts targets : list string) (repos : list (string * DB)).

(** X13. [init_transaction] never lets an engine error through. It
    answers [None] exactly when the handle is present, the options are
    well-typed and the engine refused the transaction; the refusal is
    then logged as an error. The only exception it raises is
    [UnboundLocalError], without any log: when the handle is missing
    (no engine call is made) or the options are ill-typed, or when the
    engine failed with something other than an engine error. *)
Theorem init_transaction_outcomes options p :
  let r := init_transaction options p in
  (r.1 = Ret None
   ↔ ∃ h flags err,
       handle p = Some h
       ∧ transaction_options options = Ok flags
       ∧ h_init_transaction h flags (engine_calls p) = Err (PyalpmError err))
  ∧ (∀ h flags err,
       handle p = Some h →
       transaction_options options = Ok flags →
       h_init_transaction h flags (engine_calls p) = Err (PyalpmError err) →
       logged r.2
       = logged p ++ [(ERROR, py_format "Can't init alpm transaction: %s" [err])]
       ∧ engine_calls r.2 = engine_calls p ++ [CInitTransaction flags])
  ∧ (∀ e, r.1 = Raise e →
       e = BuiltinExc "UnboundLocalError" ∧ logged r.2 = logged p)
  ∧ (handle p = None → r = (Raise (BuiltinExc "UnboundLocalError"), p))
  ∧ (∀ e, r.1 ≠ Joining e).
Proof.
  intros r. subst r. unfold init_transaction, engine_call.
  destruct (handle p) as [h|] eqn:Hh.
  - destruct (transaction_options options) as [flags|e0] eqn:Hflags.
    + destruct (h_init_transaction h flags (engine_calls p)) as [t|[err|c|n]]
        eqn:Hinit; cbn.
      * split; [split; [done|]|].
        { intros (h' & flags' & err & [= <-] & [= <-] & Herr). congruence. }
        split; [intros h' flags' err [= <-] [= <-]; congruence|].
        split; [done|]. split; [done|]. done.
      * split; [split; [by eauto 10|done]|].
        split.
        { intros h' flags' err' [= <-] [= <-] Herr. rewrite Hinit in Herr.
          by injection Herr as <-. }
        split; [done|]. split; [done|]. done.
      * split; [split; [done|]|].
        { intros (h' & flags' & err & [= <-] & [= <-] & Herr). congruence. }
        split; [intros h' flags' err [= <-] [= <-]; congruence|].
        split; [by intros e [= <-]|]. split; [done|]. done.
      * split; [split; [done|]|].
        { intros (h' & flags' & err & [= <-] & [= <-] & Herr). congruence. }
        split; [intros h' flags' err [= <-] [= <-]; congruence|].
        split; [by intros e [= <-]|]. split; [done|]. done.
    + assert (e0 = BuiltinExc "TypeError") as ->.
      { unfold transaction_options in Hflags.
        destruct (py_gt (dict_get options "recursive" (PyInt 0)) 0)
          as [b0|e1] eqn:H0g.
        - destruct (py_gt (dict_get options "recursive" (PyInt 0)) 1)
            as [b1|e2] eqn:H1g; [done|].
          cbn in Hflags. injection Hflags as <-.
          destruct (dict_get options "recursive" (PyInt 0)); cbn in H1g;
            by simplify_eq.
        - cbn in Hflags. injection Hflags as <-.
          destruct (dict_get options "recursive" (PyInt 0)); cbn in H0g;
            by simplify_eq. }
      cbn.
      split; [split; [done|]|].
      { intros (h' & flags' & err & _ & [=] & _). }
      split; [intros h' flags' err _ [=]|].
      split; [by intros e [= <-]|]. split; [done|]. done.
  - cbn. split; [split; [done|]|].
    { intros (h' & flags' & err & [=] & _). }
    split; [intros h' flags' err [=]|].
    split; [by intros e [= <-]|]. split; [done|]. done.
Qed.

(** X14. Once [release] has dropped the handle, [do_refresh] and
    [do_install] raise the engine error, whatever their arguments (an
    empty list of names included), after logging that alpm is not
    initialised and without any engine call. [release] itself never
    fails and may be repeated. *)
Theorem released_object_refuses_work pkgs conflicts options p :
  handle (release p).2 = None
  ∧ (release ;; release) p = release p
  ∧ (release ;; do_refresh) p
    = (Raise (PyalpmError EmptyString),
       logging ERROR "alpm is not initialised" (release p).2)
  ∧ (release ;; do_install pkgs conflicts options) p
    = (Raise (PyalpmError EmptyString),
       logging ERROR "alpm is not initialised" (release p).2)
  ∧ engine_calls (logging ERROR "alpm is not initialised" (release p).2)
    = engine_calls p.
Proof.
  assert (Hrelease : ∃ p', release p = (Ret tt, p') ∧ handle p' = None
                      ∧ engine_calls p' = engine_calls p).
  { unfold release. destruct (handle p) eqn:Hh; eauto. }
  destruct Hrelease as (p' & Hr & Hh & Hcalls).
  unfold mbind, M_bind. rewrite Hr. cbn.
  unfold release, do_refresh, do_install. rewrite Hh. by repeat split.
Qed.

(** X15. When the engine refuses to create the transaction of a
    database, [do_refresh] still updates that database, then fails on
    the release of the transaction it does not have: the exception is
    [AttributeError], not an engine error, and the remaining databases
    are not visited. *)
Theorem do_refresh_without_transaction p h db dbs err updated :
  handle p = Some h →
  get_syncdbs h = db :: dbs →
  h_init_transaction h default_flags (engine_calls p) = Err (PyalpmError err) →
  db_update db true (engine_calls p ++ [CInitTransaction default_flags])
  = Ok updated →
  let r := do_refresh p in
  r.1 = Raise (BuiltinExc "AttributeError")
  ∧ engine_calls r.2
    = engine_calls p
      ++ [CInitTransaction default_flags; CUpdate (db_name db) true]
  ∧ logged r.2
    = logged p ++ [(ERROR, py_format "Can't init alpm transaction: %s" [err])].
Proof.
  intros Hh Hdbs Hinit Hupdate r.
  assert (Hrun : r =
    (Raise (BuiltinExc "AttributeError"),
     set_engine_calls
       (engine_calls p
        ++ [CInitTransaction default_flags; CUpdate (db_name db) true])
       (logging ERROR (py_format "Can't init alpm transaction: %s" [err]) p))).
  { subst r. unfold do_refresh. rewrite Hh, Hdbs. cbn [do_refresh_loop].
    unfold mbind, M_bind, init_transaction, engine, engine_call,
      release_transaction, raise.
    rewrite Hh, transaction_options_empty. cbn -[py_format].
    rewrite Hinit. cbn -[py_format]. rewrite Hupdate. cbn -[py_format].
    by rewrite <- app_assoc. }
  by rewrite Hrun.
Qed.

End Failures.

Lemma do_refresh_without_transaction_witness :
  let h := locked_handle [quiet_db "core" []; quiet_db "extra" []] in
  let p := new_Pac None h in
  let r := @do_refresh libalpm_consts p in
  handle p = Some h
  ∧ r.1 = Raise (BuiltinExc "AttributeError")
  ∧ engine_calls r.2 = [CInitTransaction default_flags; CUpdate "core" true]
  ∧ logged r.2
    = [(ERROR, "Can't init alpm transaction: unable to lock database"%string)].
Proof.
  intros h p r.
  assert (Hh : handle p = Some h) by reflexivity.
  split; [exact Hh|].
  exact (@do_refresh_without_transaction libalpm_consts p h
           (quiet_db "core" []) [quiet_db "extra" []]
           "unable to lock database" true Hh eq_refl eq_refl eq_refl).
Defined.

(** ** Installing the targets *)

Section Targets.

Context `{PyalpmConsts}.

Implicit Types (p : Pac) (h : Handle) (options : gmap string PyVal)
  (targets before after : list string) (repos : list (string * DB))
  (trans : Transaction) (name : string).

Lemma add_targets_accepted trans repos targets p :
  Forall (found_again repos) targets →
  (∀ pkg calls, pkg_name pkg ∈ targets → t_add_pkg trans pkg calls = Ok tt) →
  add_targets trans repos targets p = (Ret tt, added targets p).
Proof.
  intros Hfound. revert p.
  induction Hfound as [|name targets (pkg & Hpkg & Hname) _ IH]; intros p Hadd.
  - cbn. unfold added, adding_lines. cbn. rewrite !app_nil_r. by destruct p.
  - cbn [add_targets]. rewrite Hpkg.
    unfold mbind at 1, M_bind at 1. cbn [log].
    unfold mbind at 1, M_bind at 1, engine, engine_call. cbn -[py_format].
    rewrite Hadd by (rewrite Hname; left). cbn -[py_format].
    rewrite IH by (intros; apply Hadd; by right).
    unfold added, adding_lines, logging. cbn -[py_format].
    by rewrite Hname, <- !app_assoc.
Qed.

Lemma add_targets_refused trans repos before name after p e :
  Forall (found_again repos) (before ++ [name]) →
  (∀ pkg calls, pkg_name pkg ∈ before → t_add_pkg trans pkg calls = Ok tt) →
  (∀ pkg calls, pkg_name pkg = name → t_add_pkg trans pkg calls = Err e) →
  add_targets trans repos (before ++ name :: after) p
  = (Raise e, added (before ++ [name]) p).
Proof.
  intros Hfound. revert p.
  induction before as [|name0 before IH]; intros p Hadd Hrefuse.
  - apply Forall_cons in Hfound as [(pkg & Hpkg & Hname) _].
    cbn [app add_targets]. rewrite Hpkg.
    unfold mbind at 1, M_bind at 1. cbn [log].
    unfold mbind at 1, M_bind at 1, engine, engine_call. cbn -[py_format].
    rewrite Hrefuse by done. cbn -[py_format].
    unfold added, adding_lines, logging. cbn -[py_format]. by rewrite Hname.
  - cbn [app] in Hfound. apply Forall_cons in Hfound
      as [(pkg & Hpkg & Hname) Hfound].
    cbn [app add_targets]. rewrite Hpkg.
    unfold mbind at 1, M_bind at 1. cbn [log].
    unfold mbind at 1, M_bind at 1, engine, engine_call. cbn -[py_format].
    rewrite Hadd by (rewrite Hname; left). cbn -[py_format].
    rewrite IH; [|done|intros; apply Hadd; by right|done].
    unfold added, adding_lines, logging. cbn -[py_format].
    by rewrite Hname, <- !app_assoc.
Qed.

(** X16. When the handle is initialised, the options give the
    transaction's flags, the engine creates the transaction, every
    target is found again by [find_sync_package] as a package of that
    very name, the engine accepts every package and both phases and
    the release return, [do_install] from its non-empty targets on
    calls the engine in this order: the transaction is created, each
    target is added once in the order of the target list, then
    [prepare], [commit], [release]. It answers [True] and leaves the
    number of targets in [total_packages_to_download]. *)
Theorem install_targets_adds_each_target repos targets options p h flags trans :
  targets ≠ [] →
  handle p = Some h →
  transaction_options options = Ok flags →
  h_init_transaction h flags (engine_calls p) = Ok trans →
  Forall (found_again repos) targets →
  (∀ pkg calls, t_add_pkg trans pkg calls = Ok tt) →
  (∀ calls, t_prepare trans calls = Ok tt) →
  (∀ calls, t_commit trans calls = Ok tt) →
  (∀ calls, t_release trans calls = Ok tt) →
  let r := install_targets repos targets options p in
  r.1 = Ret (Bool true)
  ∧ engine_calls r.2
    = engine_calls p ++ [CInitTransaction flags] ++ (CAddPkg <$> targets)
      ++ [CPrepare; CCommit; CRelease]
  ∧ total_packages_to_download r.2 = Z.of_nat (length targets).
Proof.
  intros Hne Hh Hflags Hinit Hfound Hadd Hprepare Hcommit Hrelease r.
  assert (Hrun : r =
    (Ret (Bool true),
     set_engine_calls
       (engine_calls p ++ [CInitTransaction flags] ++ (CAddPkg <$> targets)
        ++ [CPrepare; CCommit; CRelease])
       (logging DEBUG "Run and finalize transaction..."
          (set_total_packages_to_download (Z.of_nat (length targets))
             (set_logged (logged p ++ adding_lines targets) p))))).
  { subst r. unfold install_targets.
    rewrite bool_decide_eq_false_2 by (by destruct targets).
    unfold mbind at 1, M_bind at 1.
    unfold init_transaction, engine_call. rewrite Hh, Hflags, Hinit.
    unfold mbind at 1, M_bind at 1.
    rewrite add_targets_accepted; [|done|by intros; apply Hadd].
    unfold mbind at 1, M_bind at 1. unfold mbind at 1, M_bind at 1.
    cbn [log]. unfold mbind at 1, M_bind at 1.
    unfold finalize_transaction, engine_call.
    rewrite Hprepare. cbn -[py_format]. rewrite Hcommit, Hrelease.
    cbn -[py_format]. unfold added, logging. cbn -[py_format].
    by rewrite <- !app_assoc. }
  by rewrite Hrun.
Qed.

(** X17. When the engine refuses one of the packages, [do_install]
    lets that exception through as soon as it occurs: the packages
    after it are not added, neither phase is run, and the transaction
    that was created is never released. *)
Theorem install_targets_leaks_refused_transaction
    repos before name after options p h flags trans e :
  handle p = Some h →
  transaction_options options = Ok flags →
  h_init_transaction h flags (engine_calls p) = Ok trans →
  Forall (found_again repos) (before ++ [name]) →
  (∀ pkg calls, pkg_name pkg ∈ before → t_add_pkg trans pkg calls = Ok tt) →
  (∀ pkg calls, pkg_name pkg = name → t_add_pkg trans pkg calls = Err e) →
  let r := install_targets repos (before ++ name :: after) options p in
  r.1 = Raise e
  ∧ engine_calls r.2
    = engine_calls p ++ [CInitTransaction flags]
      ++ (CAddPkg <$> before ++ [name])
  ∧ releases (engine_calls r.2) = releases (engine_calls p).
Proof.
  intros Hh Hflags Hinit Hfound Hadd Hrefuse r.
  assert (Hrun : r =
    (Raise e,
     set_engine_calls
       (engine_calls p ++ [CInitTransaction flags]
        ++ (CAddPkg <$> before ++ [name]))
       (set_logged (logged p ++ adding_lines (before ++ [name])) p))).
  { subst r. unfold install_targets.
    rewrite bool_decide_eq_false_2 by (by destruct before).
    unfold mbind at 1, M_bind at 1.
    unfold init_transaction, engine_call. rewrite Hh, Hflags, Hinit.
    unfold mbind at 1, M_bind at 1.
    rewrite (add_targets_refused _ _ _ _ _ _ e) by done.
    unfold added. cbn -[py_format]. by rewrite <- !app_assoc. }
  rewrite Hrun. cbn -[py_format]. split; [done|]. split; [done|].
  unfold releases. rewrite !List.filter_app, !length_app. cbn.
  assert (Hnone : ∀ l : list string,
            List.filter is_release (CAddPkg <$> l) = []).
  { induction l as [|x l IHl]; [done|]. cbn. exact IHl. }
  rewrite Hnone. cbn. lia.
Qed.

(** X18. When the engine refuses to create the transaction,
    [do_install] answers [False] after the refusal was logged: no
    package is added and nothing is prepared, committed or released. *)
Theorem install_targets_without_transaction
    repos targets options p h flags err :
  targets ≠ [] →
  handle p = Some h →
  transaction_options options = Ok flags →
  h_init_transaction h flags (engine_calls p) = Err (PyalpmError err) →
  let r := install_targets repos targets options p in
  r.1 = Ret (Bool false)
  ∧ engine_calls r.2 = engine_calls p ++ [CInitTransaction flags]
  ∧ logged r.2
    = logged p ++ [(ERROR, py_format "Can't init alpm transaction: %s" [err])].
Proof.
  intros Hne Hh Hflags Hinit r. subst r. unfold install_targets.
  rewrite bool_decide_eq_false_2 by (by destruct targets).
  unfold mbind, M_bind, init_transaction, engine_call.
  rewrite Hh, Hflags, Hinit. done.
Qed.

End Targets.

Lemma install_targets_adds_each_target_witness :
  let p := new_Pac None core_AB in
  let r := @install_targets libalpm_consts (repos_of core_AB) ["A"; "B"] ∅ p in
  ["A"; "B"] ≠ @nil string
  ∧ Forall (found_again (repos_of core_AB)) ["A"; "B"]
  ∧ r.1 = Ret (Bool true)
  ∧ engine_calls r.2
    = [CInitTransaction default_flags; CAddPkg "A"; CAddPkg "B";
       CPrepare; CCommit; CRelease]
  ∧ total_packages_to_download r.2 = 2.
Proof.
  intros p r.
  assert (Hne : ["A"; "B"] ≠ @nil string) by discriminate.
  assert (Hfound : Forall (found_again (repos_of core_AB)) ["A"; "B"]).
  { repeat constructor.
    - exists (mkPkg "A"). split; vm_compute; reflexivity.
    - exists (mkPkg "B"). split; vm_compute; reflexivity. }
  split; [exact Hne|]. split; [exact Hfound|].
  exact (@install_targets_adds_each_target libalpm_consts (repos_of core_AB)
           ["A"; "B"] ∅ p core_AB default_flags quiet_transaction
           Hne eq_refl eq_refl eq_refl Hfound
           (λ _ _, eq_refl) (λ _, eq_refl) (λ _, eq_refl) (λ _, eq_refl)).
Defined.

Lemma install_targets_leaks_refused_transaction_witness :
  let h := refusing_handle [quiet_db "core" ["A"; "B"]] in
  let p := new_Pac None h in
  let r := @install_targets libalpm_consts (repos_of h) ["A"; "B"] ∅ p in
  handle p = Some h
  ∧ Forall (found_again (repos_of h)) ([] ++ ["A"])
  ∧ r.1 = Raise (PyalpmError "could not add package")
  ∧ engine_calls r.2 = [CInitTransaction default_flags; CAddPkg "A"]
  ∧ releases (engine_calls r.2) = 0%nat.
Proof.
  intros h p r.
  assert (Hh : handle p = Some h) by reflexivity.
  assert (Hfound : Forall (found_again (repos_of h)) ([] ++ ["A"])).
  { repeat constructor. exists (mkPkg "A"). split; vm_compute; reflexivity. }
  split; [exact Hh|]. split; [exact Hfound|].
  exact (@install_targets_leaks_refused_transaction libalpm_consts (repos_of h)
           [] "A" ["B"] ∅ p h default_flags refusing_transaction
           (PyalpmError "could not add package")
           Hh eq_refl eq_refl Hfound
           (λ pkg _ Hin, False_ind _ (proj1 (elem_of_nil _) Hin))
           (λ _ _ _, eq_refl)).
Defined.

Lemma install_targets_without_transaction_witness :
  let h := locked_handle [quiet_db "core" ["A"]] in
  let p := new_Pac None h in
  let r := @install_targets libalpm_consts (repos_of h) ["A"] ∅ p in
  ["A"] ≠ @nil string
  ∧ handle p = Some h
  ∧ r.1 = Ret (Bool false)
  ∧ engine_calls r.2 = [CInitTransaction default_flags]
  ∧ logged r.2
    = [(ERROR, "Can't init alpm transaction: unable to lock database"%string)].
Proof.
  intros h p r.
  assert (Hne : ["A"] ≠ @nil string) by discriminate.
  assert (Hh : handle p = Some h) by reflexivity.
  split; [exact Hne|]. split; [exact Hh|].
  exact (@install_targets_without_transaction libalpm_consts (repos_of h)
           ["A"] ∅ p h default_flags "unable to lock database"
           Hne Hh eq_refl eq_refl).
Defined.

(** ** Resolving the requested names *)

Section Resolution.

Implicit Types (p : Pac) (h : Handle) (repos : list (string * DB))
  (conflicts pkgs : list string) (name : string).

Lemma diagnosed_logged h repos pkgs p :
  foldl (λ p name, diagnosed h repos name p) p pkgs
  = set_logged (logged p ++ unknown_lines h repos pkgs) p.
Proof.
  revert p. induction pkgs as [|name pkgs IH]; intros p.
  - unfold unknown_lines. cbn. rewrite app_nil_r. by destruct p.
  - cbn [foldl]. rewrite IH. unfold unknown_lines, diagnosed, is_unknown.
    cbn [List.filter].
    destruct (find_sync_package name repos) as [pkg|msg]; [done|].
    destruct (get_group_pkgs h name); [done|].
    unfold logging. cbn -[py_format]. by rewrite <- app_assoc.
Qed.

(** X19. Resolving the requested names never fails and never calls the
    engine. A name that is neither a package nor a group only leaves one
    error line naming it, in the order of the request, and the other
    names are still resolved; a name found as a package yields that
    package alone, whether or not a group has the same name; nothing
    that is in [conflicts] becomes a target. *)
Theorem resolve_targets_skips_unknown_names h repos conflicts pkgs p :
  let r := resolve_targets h repos conflicts [] pkgs p in
  r.1 = Ret (pkgs ≫= contributed h repos conflicts)
  ∧ r.2 = set_logged (logged p ++ unknown_lines h repos pkgs) p
  ∧ engine_calls r.2 = engine_calls p
  ∧ (∀ name pkg, find_sync_package name repos = inl pkg →
       contributed h repos conflicts name
       = if bool_decide (pkg_name pkg ∈ conflicts) then [] else [pkg_name pkg])
  ∧ (∀ name, is_unknown h repos name = true →
       contributed h repos conflicts name = [])
  ∧ (∀ target, target ∈ pkgs ≫= contributed h repos conflicts →
       target ∉ conflicts).
Proof.
  intros r. subst r. rewrite resolve_targets_spec, diagnosed_logged. cbn [app].
  split; [done|]. split; [done|]. split; [done|]. split; [|split].
  - intros name pkg Hpkg. unfold contributed. by rewrite Hpkg.
  - intros name Hunknown. unfold is_unknown, contributed in *.
    destruct (find_sync_package name repos); [done|].
    by destruct (get_group_pkgs h name).
  - intros target (name & Htarget & _)%list_elem_of_bind.
    by apply contributed_not_in_conflicts in Htarget.
Qed.

End Resolution.
